(** * ESC/POS parser: a shallow embedding of [lib/commands.js] and
    [lib/parser.js], and the properties of the tokenizer, the text decoder
    and the text formatter.

    Conventions of the embedding.
    - A [Buffer] is a [list N] of byte values; [buffer[i]] is
      [nth_error buffer i], with [None] standing for [undefined].
    - A JavaScript string is the list of its UTF-16 code units ([jsstring]);
      [text.length], [text[i]] and the character-class tests of the regular
      expressions all work on code units, as they do in the source.
    - Command names and encoding names, which the source only compares with
      [===], are [string]s.
    - [throw] is the [Throws] constructor of [Outcome].
    - [iconv.decode] belongs to the iconv-lite package and is taken as a
      parameter of the parser: a function that either returns the decoded
      string or fails.
    - [Buffer.from(s, 'hex')], [buf.toString('ascii')] and
      [String.prototype.repeat] behave as Node and ECMAScript document
      them.  The bound an engine puts on the length of a string is not
      modelled: [repeat] fails for a negative count only. *)

From Stdlib Require Import String Ascii DecimalString.
From Stdlib Require HexadecimalString.
From Stdlib Require Import NArith ZArith Arith Bool Lia List.
From Equations Require Import Equations.
Import ListNotations.

Set Implicit Arguments.
Open Scope string_scope.
Open Scope list_scope.
Open Scope nat_scope.

(** ** JavaScript values used by the two modules *)

Module JS.

Definition jsstring := list N.

(** Reading of a source literal: the UTF-8 bytes of the literal as written in
    this file are turned into UTF-16 code units.  All literals of the two
    modules lie in the Basic Multilingual Plane (one to three bytes). *)
Fixpoint utf8_units (bs : list N) : jsstring :=
  match bs with
  | [] => []
  | b :: tl =>
      if (b <? 128)%N then b :: utf8_units tl
      else
        match tl with
        | [] => [65533%N]
        | c :: tl2 =>
            if (b <? 224)%N
            then N.lor (N.shiftl (N.land b 31) 6) (N.land c 63) :: utf8_units tl2
            else
              match tl2 with
              | [] => [65533%N]
              | d :: tl3 =>
                  N.lor (N.shiftl (N.land b 15) 12)
                        (N.lor (N.shiftl (N.land c 63) 6) (N.land d 63))
                  :: utf8_units tl3
              end
        end
  end.

Definition js (s : string) : jsstring :=
  utf8_units (map N_of_ascii (list_ascii_of_string s)).

(** [String(n)] for a non-negative integer. *)
Definition decimal (n : N) : jsstring :=
  js (NilEmpty.string_of_uint (N.to_uint n)).

(** [`${v}`] where [v] is a byte read from a buffer, or [undefined]. *)
Definition template (v : option N) : jsstring :=
  match v with
  | Some n => decimal n
  | None => js "undefined"
  end.

(** Truthiness of a number or [undefined]. *)
Definition truthy (v : option N) : bool :=
  match v with
  | Some n => negb (n =? 0)%N
  | None => false
  end.

(** [s.repeat(n)] for [n >= 0]. *)
Definition repeatString (s : jsstring) (n : nat) : jsstring :=
  concat (repeat s n).

(** [lines.join(sep)]. *)
Fixpoint join (sep : jsstring) (lines : list jsstring) : jsstring :=
  match lines with
  | [] => []
  | [l] => l
  | l :: rest => l ++ sep ++ join sep rest
  end.

Fixpoint startsWith (s prefix : jsstring) : bool :=
  match prefix, s with
  | [], _ => true
  | p :: prefix', c :: s' => (c =? p)%N && startsWith s' prefix'
  | _ :: _, [] => false
  end.

(** [s.includes(needle)]. *)
Fixpoint includes (s needle : jsstring) : bool :=
  startsWith s needle ||
  match s with
  | [] => false
  | _ :: s' => includes s' needle
  end.

(** The outcome of a call that may [throw]. *)
Inductive Outcome (A : Type) : Type :=
| Returns (a : A)
| Throws (message : jsstring).
Arguments Returns {A} a.
Arguments Throws {A} message.

Definition bind {A B} (m : Outcome A) (k : A -> Outcome B) : Outcome B :=
  match m with
  | Returns a => k a
  | Throws e => Throws e
  end.

End JS.

Import JS.

Notation "x <- m ;; k" := (bind m (fun x => k))
  (at level 61, m at next level, right associativity).

(** ** lib/commands.js *)

Module Commands.

(** A parsed item: the object literals built by the [parse] functions, by
    [parseCommand] and by [createTextItem].  An absent key and a key holding
    [undefined] are both [None]. *)
Inductive Item : Type :=
| CommandItem (command : string) (value : option N)
              (width height : option N) (description : jsstring)
| TextItem (data text : jsstring) (bytes : list N) (encoding : string)
           (description : jsstring).

Definition itemValue (it : Item) : option N :=
  match it with
  | CommandItem _ v _ _ _ => v
  | TextItem _ _ _ _ _ => None
  end.

Record CommandDef : Type := {
  bytes : list N;
  name : string;
  description : jsstring;
  parse : option (list N -> nat -> Item)
}.

(** [table[value] || fallback] for the small description tables. *)
Fixpoint lookupOr (table : list (N * jsstring)) (value : option N)
  (fallback : jsstring) : jsstring :=
  match table, value with
  | (k, s) :: rest, Some v => if (v =? k)%N then s else lookupOr rest value fallback
  | _, _ => fallback
  end.

Definition INITIALIZE : CommandDef := {|
  bytes := [0x1b; 0x40]%N;
  name := "INITIALIZE";
  description := js "初始化打印机";
  parse := Some (fun _ _ =>
    CommandItem "INITIALIZE" None None None (js "初始化打印机"))
|}.

Definition ALIGN : CommandDef := {|
  bytes := [0x1b; 0x61]%N;
  name := "ALIGN";
  description := js "设置对齐方式";
  parse := Some (fun data index =>
    let value := nth_error data (index + 2) in
    let alignments := [(0, js "左对齐"); (1, js "居中"); (2, js "右对齐")]%N in
    CommandItem "ALIGN" value None None
      (js "设置对齐方式: " ++ lookupOr alignments value (js "未知")))
|}.

Definition PRINT_AND_FEED : CommandDef := {|
  bytes := [0x1b; 0x64]%N;
  name := "PRINT_AND_FEED";
  description := js "打印并进纸";
  parse := Some (fun data index =>
    let lines := nth_error data (index + 2) in
    CommandItem "PRINT_AND_FEED" lines None None
      (js "打印并进纸 " ++ template lines ++ js " 行"))
|}.

Definition CUT_PAPER : CommandDef := {|
  bytes := [0x1d; 0x56]%N;
  name := "CUT_PAPER";
  description := js "切纸命令";
  parse := Some (fun data index =>
    let mode := nth_error data (index + 2) in
    let modes := [(0, js "全切"); (1, js "半切")]%N in
    CommandItem "CUT_PAPER" mode None None
      (js "切纸: " ++ lookupOr modes mode (js "未知模式")))
|}.

(** [size & mask] where [size] may be [undefined] (which [&] reads as 0). *)
Definition bitand (size : option N) (mask : N) : N :=
  match size with
  | Some s => N.land s mask
  | None => 0%N
  end.

Definition FONT_SIZE : CommandDef := {|
  bytes := [0x1d; 0x21]%N;
  name := "FONT_SIZE";
  description := js "设置字体大小";
  parse := Some (fun data index =>
    let size := nth_error data (index + 2) in
    let width := N.shiftr (bitand size 0xf0) 4 in
    let height := bitand size 0x0f in
    CommandItem "FONT_SIZE" size (Some (width + 1)%N) (Some (height + 1)%N)
      (js "设置字体大小: 宽度" ++ decimal (width + 1) ++ js "x 高度"
         ++ decimal (height + 1) ++ js "x"))
|}.

Definition BOLD : CommandDef := {|
  bytes := [0x1b; 0x45]%N;
  name := "BOLD";
  description := js "设置加粗";
  parse := Some (fun data index =>
    let enable := nth_error data (index + 2) in
    CommandItem "BOLD" enable None None
      (if truthy enable then js "开启加粗" else js "关闭加粗"))
|}.

Definition UNDERLINE : CommandDef := {|
  bytes := [0x1b; 0x2d]%N;
  name := "UNDERLINE";
  description := js "设置下划线";
  parse := Some (fun data index =>
    let mode := nth_error data (index + 2) in
    let modes := [(0, js "关闭"); (1, js "1点粗"); (2, js "2点粗")]%N in
    CommandItem "UNDERLINE" mode None None
      (js "下划线: " ++ lookupOr modes mode (js "未知")))
|}.

Definition LINE_SPACING : CommandDef := {|
  bytes := [0x1b; 0x33]%N;
  name := "LINE_SPACING";
  description := js "设置行间距";
  parse := Some (fun data index =>
    let spacing := nth_error data (index + 2) in
    CommandItem "LINE_SPACING" spacing None None
      (js "设置行间距: " ++ template spacing ++ js " 点"))
|}.

Definition CHAR_SPACING : CommandDef := {|
  bytes := [0x1b; 0x20]%N;
  name := "CHAR_SPACING";
  description := js "设置字符间距";
  parse := Some (fun data index =>
    let spacing := nth_error data (index + 2) in
    CommandItem "CHAR_SPACING" spacing None None
      (js "设置字符间距: " ++ template spacing ++ js " 点"))
|}.

Definition BOLD_MODE : CommandDef := {|
  bytes := [0x1d; 0x42]%N;
  name := "BOLD_MODE";
  description := js "加粗模式控制";
  parse := Some (fun data index =>
    let enable := nth_error data (index + 2) in
    CommandItem "BOLD_MODE" enable None None
      (if truthy enable then js "开启加粗模式" else js "关闭加粗模式"))
|}.

(** The registry, in the order of [Object.entries(COMMANDS)]: the insertion
    order of the keys of the object literal. *)
Definition COMMANDS : list CommandDef :=
  [INITIALIZE; ALIGN; PRINT_AND_FEED; CUT_PAPER; FONT_SIZE; BOLD; UNDERLINE;
   LINE_SPACING; CHAR_SPACING; BOLD_MODE].

(** The byte-by-byte comparison, [i] running over the signature; a read past
    the end of [data] gives [undefined], which is [!==] to every byte. *)
Fixpoint signatureMatches (data : list N) (index : nat) (sig : list N)
  (i : nat) : bool :=
  match sig with
  | [] => true
  | b :: rest =>
      match nth_error data (index + i) with
      | Some d => if (d =? b)%N then signatureMatches data index rest (S i) else false
      | None => false
      end
  end.

(** [findCommand] over an arbitrary registry: the [for ... of] loop. *)
Fixpoint findCommandIn (registry : list CommandDef) (data : list N)
  (index : nat) : option CommandDef :=
  match registry with
  | [] => None
  | command :: rest =>
      if length data <? index + length (bytes command)
      then findCommandIn rest data index
      else if signatureMatches data index (bytes command) 0
           then Some command
           else findCommandIn rest data index
  end.

Definition findCommand (data : list N) (index : nat) : option CommandDef :=
  findCommandIn COMMANDS data index.

Definition isPrintableChar (byte : N) : bool :=
  ((32 <=? byte) && (byte <=? 126) || (128 <=? byte))%N.

Definition isNewLine (byte : N) : bool :=
  ((byte =? 0x0a) || (byte =? 0x0d))%N.

End Commands.

Import Commands.

(** ** lib/parser.js *)

Module Parser.

Definition DEFAULT_ENCODING : string := "utf8".
Definition DEFAULT_LINE_WIDTH : Z := 48.

(** [CONTROL_CHARS_REGEX]: the class [[\x00-\x08\x0b\x0c\x0e-\x1f\x7f-\x9f]]. *)
Definition isControlChar (c : N) : bool :=
  ((c <=? 0x08) || (c =? 0x0b) || (c =? 0x0c)
   || ((0x0e <=? c) && (c <=? 0x1f)) || ((0x7f <=? c) && (c <=? 0x9f)))%N.

(** [CJK_CHARS_REGEX]: the class of U+4E00 to U+9FFF and U+FF00 to U+FFEF. *)
Definition isCJKChar (c : N) : bool :=
  (((0x4e00 <=? c) && (c <=? 0x9fff)) || ((0xff00 <=? c) && (c <=? 0xffef)))%N.

Module ALIGN_TYPE.
Definition LEFT : N := 0.
Definition CENTER : N := 1.
Definition RIGHT : N := 2.
End ALIGN_TYPE.

(** The object [{ item, nextIndex }] returned by the parsing steps; a [null]
    item is [None]. *)
Record ParseResult : Type := {
  item : option Item;
  nextIndex : nat
}.

Definition inspect {A} (a : A) : { b : A | a = b } := exist _ a eq_refl.

Definition nonEmpty {A} (l : list A) : bool :=
  match l with
  | [] => false
  | _ :: _ => true
  end.

Definition isSome {A} (o : option A) : bool :=
  match o with
  | Some _ => true
  | None => false
  end.

Definition createTextItem (text : jsstring) (bytes : list N)
  (encoding : string) (description : jsstring) : Item :=
  TextItem text text bytes encoding description.

(** [Buffer.from(textBytes).toString('ascii', 0, maxLength)]: the ASCII
    decoder of Node clears the high bit of every byte. *)
Definition toStringAscii (textBytes : list N) (maxLength : nat) : jsstring :=
  map (fun b => N.land b 0x7f) (firstn maxLength textBytes).

(** The class [[\s\n\r\t]] of the cleaning regular expression: the white
    space and line terminators of ECMAScript. *)
Definition isWhiteSpace (c : N) : bool :=
  ((c =? 0x09) || (c =? 0x0a) || (c =? 0x0b) || (c =? 0x0c) || (c =? 0x0d)
   || (c =? 0x20) || (c =? 0xa0) || (c =? 0x1680)
   || ((0x2000 <=? c) && (c <=? 0x200a))
   || (c =? 0x2028) || (c =? 0x2029) || (c =? 0x202f) || (c =? 0x205f)
   || (c =? 0x3000) || (c =? 0xfeff))%N.

Definition hexValue (c : N) : option N :=
  if ((48 <=? c) && (c <=? 57))%N then Some (c - 48)%N
  else if ((65 <=? c) && (c <=? 70))%N then Some (c - 55)%N
  else if ((97 <=? c) && (c <=? 102))%N then Some (c - 87)%N
  else None.

(** [Buffer.from(cleanHex, 'hex')] as Node documents it: the digits are read
    two at a time and the data is truncated at the first pair that is not
    valid hexadecimal ([Buffer.from('1ag123', 'hex')] is [<Buffer 1a>]); it
    does not throw. *)
Fixpoint bufferFromHex (cleanHex : jsstring) : list N :=
  match cleanHex with
  | hi :: lo :: rest =>
      match hexValue hi, hexValue lo with
      | Some h, Some l => (16 * h + l)%N :: bufferFromHex rest
      | _, _ => []
      end
  | _ => []
  end.

Section Tokenizer.

(** [iconv.decode(buffer, encoding)] of iconv-lite; [None] when it throws. *)
Variable iconv_decode : list N -> string -> option jsstring.

Definition tryAlternativeEncoding (textBytes : list N)
  (originalEncoding : string) : jsstring :=
  let alternativeEncoding :=
    if String.eqb originalEncoding "gbk" then "utf8" else "gbk" in
  match iconv_decode textBytes alternativeEncoding with
  | Some decoded => decoded
  | None =>
      let maxLength := Nat.min (length textBytes) 50 in
      toStringAscii textBytes maxLength
  end.

Definition decodeText (textBytes : list N) (encoding : string) : jsstring :=
  match iconv_decode textBytes encoding with
  | Some decoded => decoded
  | None => tryAlternativeEncoding textBytes encoding
  end.

Definition parseCommand (buffer : list N) (index : nat)
  (command : CommandDef) : ParseResult :=
  let parsedCommand :=
    match parse command with
    | Some p => p buffer index
    | None => CommandItem (name command) None None None (description command)
    end in
  let nextIndex := index + length (bytes command) in
  let nextIndex :=
    match parse command, itemValue parsedCommand with
    | Some _, Some _ => nextIndex + 1
    | _, _ => nextIndex
    end in
  {| item := Some parsedCommand; nextIndex := nextIndex |}.

(** The code after the [while] loop of [parseTextData]. *)
Definition finishTextData (textBytes : list N) (encoding : string)
  (index : nat) : ParseResult :=
  let item :=
    if nonEmpty textBytes then
      let decodedText := decodeText textBytes encoding in
      Some (createTextItem decodedText textBytes encoding
              (js "文本: " ++ [34%N] ++ decodedText ++ [34%N]))
    else None in
  {| item := item; nextIndex := index |}.

(** The [while (index < buffer.length)] loop of [parseTextData]; the test of
    the loop and the read [buffer[index]] are one [nth_error]. *)
Equations parseTextData_loop (buffer : list N) (encoding : string)
  (index : nat) (textBytes : list N) : ParseResult
  by wf (length buffer - index) lt :=
parseTextData_loop buffer encoding index textBytes
  with inspect (nth_error buffer index) := {
  | exist _ None _ => finishTextData textBytes encoding index
  | exist _ (Some byte) Hbyte =>
      if isSome (findCommand buffer index) then
        finishTextData textBytes encoding index
      else if isNewLine byte then
        if nonEmpty textBytes then
          finishTextData textBytes encoding index
        else
          {| item := Some (createTextItem [10%N] [byte] encoding
                             (js "换行符"));
             nextIndex := index + 1 |}
      else if isPrintableChar byte then
        parseTextData_loop buffer encoding (index + 1) (textBytes ++ [byte])
      else if nonEmpty textBytes then
        finishTextData textBytes encoding index
      else
        parseTextData_loop buffer encoding (index + 1) textBytes }.
Next Obligation.
  assert (index < length buffer) by (apply nth_error_Some; congruence). lia.
Qed.
Next Obligation.
  assert (index < length buffer) by (apply nth_error_Some; congruence). lia.
Qed.

Definition parseTextData (buffer : list N) (startIndex : nat)
  (encoding : string) : ParseResult :=
  parseTextData_loop buffer encoding startIndex [].

Definition parseNextItem (buffer : list N) (index : nat)
  (encoding : string) : ParseResult :=
  match findCommand buffer index with
  | Some command => parseCommand buffer index command
  | None => parseTextData buffer index encoding
  end.

Lemma parseTextData_loop_step (buffer : list N) (encoding : string)
  (index : nat) (textBytes : list N) :
  parseTextData_loop buffer encoding index textBytes =
  match nth_error buffer index with
  | None => finishTextData textBytes encoding index
  | Some byte =>
      if isSome (findCommand buffer index) then
        finishTextData textBytes encoding index
      else if isNewLine byte then
        if nonEmpty textBytes then
          finishTextData textBytes encoding index
        else
          {| item := Some (createTextItem [10%N] [byte] encoding
                             (js "换行符"));
             nextIndex := index + 1 |}
      else if isPrintableChar byte then
        parseTextData_loop buffer encoding (index + 1) (textBytes ++ [byte])
      else if nonEmpty textBytes then
        finishTextData textBytes encoding index
      else
        parseTextData_loop buffer encoding (index + 1) textBytes
  end.
Proof.
  etransitivity; [ apply parseTextData_loop_equation_1 | ].
  generalize (inspect (nth_error buffer index)).
  intros [[byte|] Hbyte]; cbn [parseTextData_loop_unfold_clause_1];
    rewrite Hbyte; reflexivity.
Qed.

(** *** Progress of one parsing step

    The outer loop of [parseBuffer] continues from the [nextIndex] of each
    step; that it ends is the fact that every step moves the cursor forward
    and never past the end of the buffer. *)

Lemma findCommandIn_sound (registry : list CommandDef) (data : list N)
  (index : nat) (c : CommandDef) :
  findCommandIn registry data index = Some c ->
  In c registry /\ index + length (bytes c) <= length data.
Proof.
  induction registry as [|d rest IH]; simpl; [discriminate|].
  destruct (Nat.ltb_spec (length data) (index + length (bytes d))) as [Hlt|Hge].
  - intros H. destruct (IH H). auto.
  - destruct (signatureMatches data index (bytes d) 0).
    + intros H. injection H as <-. auto.
    + intros H. destruct (IH H). auto.
Qed.

(** Every registered command has a two-byte signature and a [parse] function
    whose [value] is the byte at [index + 2] or is absent. *)
Definition oneParameterByte (c : CommandDef) : Prop :=
  length (bytes c) = 2 /\
  exists p, parse c = Some p /\
    forall data index,
      itemValue (p data index) = nth_error data (index + 2) \/
      itemValue (p data index) = None.

Lemma COMMANDS_oneParameterByte : Forall oneParameterByte COMMANDS.
Proof.
  unfold COMMANDS.
  repeat (apply Forall_cons;
          [ split; [reflexivity | eexists; split; [reflexivity | intros; simpl; auto]] | ]).
  apply Forall_nil.
Qed.

Lemma parseCommand_bounds (buffer : list N) (index : nat) (c : CommandDef) :
  findCommand buffer index = Some c ->
  index + 2 <= nextIndex (parseCommand buffer index c) <= length buffer.
Proof.
  intros Hfind. apply findCommandIn_sound in Hfind as [Hin Hlen].
  pose proof COMMANDS_oneParameterByte as Hall.
  rewrite Forall_forall in Hall. destruct (Hall c Hin) as [H2 [p [Hp Hval]]].
  unfold parseCommand. rewrite Hp, H2 in *. simpl.
  destruct (itemValue (p buffer index)) eqn:Hv; simpl; [|lia].
  destruct (Hval buffer index) as [Hnth|Hnone]; [|congruence].
  assert (index + 2 < length buffer) by (apply nth_error_Some; congruence).
  lia.
Qed.

Lemma finishTextData_nextIndex (textBytes : list N) (encoding : string)
  (index : nat) :
  nextIndex (finishTextData textBytes encoding index) = index.
Proof. reflexivity. Qed.

Lemma parseTextData_loop_bounds (buffer : list N) (encoding : string) :
  forall (n index : nat) (textBytes : list N),
    length buffer - index <= n ->
    index <= length buffer ->
    index <= nextIndex (parseTextData_loop buffer encoding index textBytes)
          <= length buffer.
Proof.
  induction n as [|n IH]; intros index textBytes Hn Hle;
    rewrite parseTextData_loop_step.
  - destruct (nth_error buffer index) eqn:Hb.
    + assert (index < length buffer) by (apply nth_error_Some; congruence). lia.
    + simpl. lia.
  - destruct (nth_error buffer index) as [byte|] eqn:Hb; [|simpl; lia].
    assert (index < length buffer) by (apply nth_error_Some; congruence).
    destruct (isSome (findCommand buffer index)); [simpl; lia|].
    destruct (isNewLine byte).
    { destruct (nonEmpty textBytes); simpl; lia. }
    destruct (isPrintableChar byte).
    { specialize (IH (index + 1) (textBytes ++ [byte])). lia. }
    destruct (nonEmpty textBytes); [simpl; lia|].
    specialize (IH (index + 1) textBytes). lia.
Qed.

Lemma parseNextItem_progress (buffer : list N) (index : nat)
  (encoding : string) :
  index < length buffer ->
  index < nextIndex (parseNextItem buffer index encoding) <= length buffer.
Proof.
  intros Hlt. unfold parseNextItem.
  destruct (findCommand buffer index) as [c|] eqn:Hfind.
  - pose proof (parseCommand_bounds _ _ Hfind). lia.
  - unfold parseTextData. rewrite parseTextData_loop_step.
    destruct (nth_error buffer index) as [byte|] eqn:Hb.
    2:{ apply nth_error_None in Hb. lia. }
    rewrite Hfind. simpl isSome. cbv iota.
    destruct (isNewLine byte); [simpl; lia|].
    destruct (isPrintableChar byte).
    + pose proof (@parseTextData_loop_bounds buffer encoding
                    (length buffer) (index + 1) ([] ++ [byte])). lia.
    + simpl nonEmpty. cbv iota.
      pose proof (@parseTextData_loop_bounds buffer encoding
                    (length buffer) (index + 1) []). lia.
Qed.

(** The [while (index < buffer.length)] loop of [parseBuffer]. *)
Equations parseBuffer_loop (buffer : list N) (encoding : string)
  (index : nat) (result : list Item) : list Item
  by wf (length buffer - index) lt :=
parseBuffer_loop buffer encoding index result
  with inspect (index <? length buffer) := {
  | exist _ true Hlt =>
      parseBuffer_loop buffer encoding
        (nextIndex (parseNextItem buffer index encoding))
        (match item (parseNextItem buffer index encoding) with
         | Some it => result ++ [it]
         | None => result
         end)
  | exist _ false _ => result }.
Next Obligation.
  apply Nat.ltb_lt in Hlt.
  pose proof (@parseNextItem_progress buffer index encoding Hlt). lia.
Qed.

Lemma parseBuffer_loop_step (buffer : list N) (encoding : string)
  (index : nat) (result : list Item) :
  parseBuffer_loop buffer encoding index result =
  if index <? length buffer then
    parseBuffer_loop buffer encoding
      (nextIndex (parseNextItem buffer index encoding))
      (match item (parseNextItem buffer index encoding) with
       | Some it => result ++ [it]
       | None => result
       end)
  else result.
Proof.
  etransitivity; [ apply parseBuffer_loop_equation_1 | ].
  generalize (inspect (index <? length buffer)).
  intros [[|] Hlt]; cbn [parseBuffer_loop_unfold_clause_1];
    rewrite Hlt; reflexivity.
Qed.

(** The argument is a [Buffer] by its type, so the [Buffer.isBuffer] test
    passes. *)
Definition parseBuffer (buffer : list N) (encoding : string) : list Item :=
  if length buffer =? 0 then []
  else parseBuffer_loop buffer encoding 0 [].

(** The argument is a string by its type.  Neither [bufferFromHex] nor
    [parseBuffer] throws, so the [catch] clause has nothing to wrap. *)
Definition parseHexString (hexString : jsstring) (encoding : string)
  : Outcome (list Item) :=
  let cleanHex := filter (fun c => negb (isWhiteSpace c)) hexString in
  if length cleanHex =? 0 then
    Throws (js "十六进制字符串不包含有效的十六进制字符")
  else if negb (length cleanHex mod 2 =? 0) then
    Throws (js "十六进制字符串长度必须为偶数")
  else
    let buffer := bufferFromHex cleanHex in
    Returns (parseBuffer buffer encoding).

End Tokenizer.

(** *** The text formatter *)

(** The [options] object of [formatAsText]; an absent [lineWidth] is
    [None]. *)
Record Options : Type := {
  optLineWidth : option Z
}.

(** The fields of a [TextFormatter] instance. *)
Record TextFormatter : Type := {
  lines : list jsstring;
  currentLine : jsstring;
  currentAlign : N;
  isBold : bool;
  hasUnderline : bool;
  lineWidth : Z
}.

(** [constructor(options)]; [options.lineWidth || DEFAULT_LINE_WIDTH]. *)
Definition newTextFormatter (options : Options) : TextFormatter := {|
  lines := [];
  currentLine := [];
  currentAlign := ALIGN_TYPE.LEFT;
  isBold := false;
  hasUnderline := false;
  lineWidth :=
    match optLineWidth options with
    | Some w => if (w =? 0)%Z then DEFAULT_LINE_WIDTH else w
    | None => DEFAULT_LINE_WIDTH
    end
|}.

Definition getTextWidth (text : jsstring) : Z :=
  fold_left (fun width char => (width + (if isCJKChar char then 2 else 1))%Z)
            text 0%Z.

Definition spaces (n : Z) : jsstring := repeatString (js " ") (Z.to_nat n).

Definition applyAlignment (f : TextFormatter)
  (originalText styledText : jsstring) : jsstring :=
  if startsWith originalText (js " ") then styledText
  else
    let textWidth := getTextWidth styledText in
    if (currentAlign f =? ALIGN_TYPE.CENTER)%N then
      let centerPadding := Z.max 0 ((lineWidth f - textWidth) / 2) in
      spaces centerPadding ++ styledText
    else if (currentAlign f =? ALIGN_TYPE.RIGHT)%N then
      let rightPadding := Z.max 0 (lineWidth f - textWidth) in
      spaces rightPadding ++ styledText
    else styledText.

Definition applyTextStyles (f : TextFormatter) (text : jsstring) : jsstring :=
  let styledText := text in
  let styledText :=
    if isBold f then js "【" ++ styledText ++ js "】" else styledText in
  let styledText :=
    if hasUnderline f then js "_" ++ styledText ++ js "_" else styledText in
  styledText.

Definition formatLine (f : TextFormatter) (text : jsstring) : jsstring :=
  let formattedText := applyTextStyles f text in
  applyAlignment f text formattedText.

Definition withLines (f : TextFormatter) (ls : list jsstring) : TextFormatter :=
  {| lines := ls; currentLine := currentLine f; currentAlign := currentAlign f;
     isBold := isBold f; hasUnderline := hasUnderline f;
     lineWidth := lineWidth f |}.

Definition withCurrentLine (f : TextFormatter) (l : jsstring) : TextFormatter :=
  {| lines := lines f; currentLine := l; currentAlign := currentAlign f;
     isBold := isBold f; hasUnderline := hasUnderline f;
     lineWidth := lineWidth f |}.

Definition withCurrentAlign (f : TextFormatter) (a : N) : TextFormatter :=
  {| lines := lines f; currentLine := currentLine f; currentAlign := a;
     isBold := isBold f; hasUnderline := hasUnderline f;
     lineWidth := lineWidth f |}.

Definition withIsBold (f : TextFormatter) (b : bool) : TextFormatter :=
  {| lines := lines f; currentLine := currentLine f;
     currentAlign := currentAlign f;
     isBold := b; hasUnderline := hasUnderline f; lineWidth := lineWidth f |}.

Definition withHasUnderline (f : TextFormatter) (b : bool) : TextFormatter :=
  {| lines := lines f; currentLine := currentLine f;
     currentAlign := currentAlign f;
     isBold := isBold f; hasUnderline := b; lineWidth := lineWidth f |}.

(** [this.lines.push(line)]. *)
Definition pushLine (f : TextFormatter) (line : jsstring) : TextFormatter :=
  withLines f (lines f ++ [line]).

Definition addFormattedLine (f : TextFormatter) (text : jsstring)
  : TextFormatter :=
  let formattedLine := formatLine f text in
  pushLine f formattedLine.

(** The recurring block
    [if (this.currentLine.length > 0) { addFormattedLine; currentLine = '' }]. *)
Definition flushCurrentLine (f : TextFormatter) : TextFormatter :=
  if nonEmpty (currentLine f)
  then withCurrentLine (addFormattedLine f (currentLine f)) []
  else f.

Definition resetFormat (f : TextFormatter) : TextFormatter :=
  {| lines := lines f; currentLine := []; currentAlign := ALIGN_TYPE.LEFT;
     isBold := false; hasUnderline := false; lineWidth := lineWidth f |}.

Definition processInitializeCommand (f : TextFormatter) : TextFormatter :=
  let f :=
    if nonEmpty (currentLine f) then addFormattedLine f (currentLine f)
    else f in
  resetFormat f.

(** ['-'.repeat(count)] throws a [RangeError] for a negative count. *)
Definition repeatDash (count : Z) : Outcome jsstring :=
  if (count <? 0)%Z
  then Throws (js "Invalid count value: -" ++ decimal (Z.to_N (- count)))
  else Returns (repeatString (js "-") (Z.to_nat count)).

Definition processCutPaperCommand (f : TextFormatter)
  : Outcome TextFormatter :=
  let f := flushCurrentLine f in
  let f := withLines f (lines f ++ repeat [] 6) in
  rule1 <- repeatDash (lineWidth f) ;;
  let f := pushLine f rule1 in
  let f := pushLine f (js " 【纸张切割处】 ") in
  rule2 <- repeatDash (lineWidth f) ;;
  Returns (pushLine f rule2).

(** [item.value > 0], false for [undefined]. *)
Definition positive (value : option N) : bool :=
  match value with
  | Some v => (0 <? v)%N
  | None => false
  end.

(** [item.value || fallback]. *)
Definition valueOr (value : option N) (fallback : N) : N :=
  match value with
  | Some v => if (v =? 0)%N then fallback else v
  | None => fallback
  end.

Definition processCommandItem (f : TextFormatter) (command : string)
  (value : option N) : Outcome TextFormatter :=
  if String.eqb command "ALIGN" then
    Returns (withCurrentAlign f (valueOr value ALIGN_TYPE.LEFT))
  else if String.eqb command "BOLD" || String.eqb command "BOLD_MODE" then
    Returns (withIsBold f (positive value))
  else if String.eqb command "UNDERLINE" then
    Returns (withHasUnderline f (positive value))
  else if String.eqb command "PRINT_AND_FEED"
          || String.eqb command "LINE_FEED" then
    let f := flushCurrentLine f in
    let feedLines := valueOr value 1 in
    let f :=
      if (1 <? feedLines)%N
      then withLines f (lines f ++ repeat [] (N.to_nat feedLines - 1))
      else f in
    let f :=
      if nonEmpty (lines f) && includes (last (lines f) []) (js "---")
      then pushLine f []
      else f in
    Returns f
  else if String.eqb command "CUT_PAPER" then
    processCutPaperCommand f
  else if String.eqb command "INITIALIZE" then
    Returns (processInitializeCommand f)
  else if String.eqb command "FONT_SIZE" then
    Returns f
  else
    Returns f.

Definition processTextItem (f : TextFormatter) (text : jsstring)
  : TextFormatter :=
  if negb (nonEmpty text) then f
  else if startsWith text [10%N] then flushCurrentLine f
  else
    let cleanText :=
      filter (fun c => negb (c =? 33)%N)
             (filter (fun c => negb (isControlChar c)) text) in
    if length cleanText =? 0 then f
    else withCurrentLine f (currentLine f ++ cleanText).

Definition processItem (f : TextFormatter) (it : Item)
  : Outcome TextFormatter :=
  match it with
  | TextItem _ text _ _ _ => Returns (processTextItem f text)
  | CommandItem command value _ _ _ => processCommandItem f command value
  end.

(** The [for ... of] loop of [format]. *)
Fixpoint processItems (f : TextFormatter) (items : list Item)
  : Outcome TextFormatter :=
  match items with
  | [] => Returns f
  | it :: rest => f' <- processItem f it ;; processItems f' rest
  end.

Definition finalizeLine (f : TextFormatter) : TextFormatter :=
  if nonEmpty (currentLine f) then addFormattedLine f (currentLine f) else f.

Definition format (f : TextFormatter) (items : list Item) : Outcome jsstring :=
  f <- processItems f items ;;
  let f := finalizeLine f in
  Returns (join [10%N] (lines f)).

(** The argument is an array by its type. *)
Definition formatAsText (items : list Item) (options : Options)
  : Outcome jsstring :=
  let formatter := newTextFormatter options in
  format formatter items.

End Parser.
Import Parser.


(** * Properties *)

Unset Implicit Arguments.

(** ** The command registry *)

Section Registry.

Variables (data : list N) (index : nat).

(** A signature matches at [index]: it fits in the buffer and every one of
    its bytes equals the byte of the buffer at the same offset. *)
Definition matchesAt (sig : list N) : Prop :=
  index + length sig <= length data /\
  forall i, i < length sig -> nth_error data (index + i) = nth_error sig i.

Lemma signatureMatches_iff (sig : list N) (i : nat) :
  signatureMatches data index sig i = true <->
  forall k, k < length sig -> nth_error data (index + i + k) = nth_error sig k.
Proof.
  revert i. induction sig as [|b rest IH]; intros i; simpl.
  - split; [intros _ k Hk; lia | reflexivity].
  - split.
    + intros H k Hk.
      destruct (nth_error data (index + i)) as [d|] eqn:Hd; [|discriminate].
      destruct (N.eqb_spec d b) as [->|]; [|discriminate].
      destruct k as [|k]; simpl.
      * rewrite Nat.add_0_r. exact Hd.
      * apply IH with (k := k) in H; [|lia].
        rewrite <- H. f_equal. lia.
    + intros H.
      pose proof (H 0 ltac:(lia)) as H0. rewrite Nat.add_0_r in H0. simpl in H0.
      rewrite H0, N.eqb_refl. apply IH. intros k Hk.
      specialize (H (S k) ltac:(lia)). simpl in H. rewrite <- H. f_equal. lia.
Qed.

Lemma findCommandIn_head (command : CommandDef) (rest : list CommandDef) :
  findCommandIn (command :: rest) data index =
  if length data <? index + length (bytes command)
  then findCommandIn rest data index
  else if signatureMatches data index (bytes command) 0
       then Some command
       else findCommandIn rest data index.
Proof. reflexivity. Qed.

Lemma matchesAt_dec (command : CommandDef) :
  (matchesAt (bytes command) /\
   forall rest, findCommandIn (command :: rest) data index = Some command) \/
  (~ matchesAt (bytes command) /\
   forall rest, findCommandIn (command :: rest) data index =
                findCommandIn rest data index).
Proof.
  unfold matchesAt.
  destruct (Nat.ltb_spec (length data) (index + length (bytes command)))
    as [Hlt|Hge].
  - right. split; [lia|]. intros rest. rewrite findCommandIn_head.
    apply Nat.ltb_lt in Hlt. rewrite Hlt. reflexivity.
  - destruct (signatureMatches data index (bytes command) 0) eqn:Hm.
    + left. split.
      * split; [lia|]. intros i Hi.
        apply signatureMatches_iff with (k := i) in Hm; [|exact Hi].
        rewrite Nat.add_0_r in Hm. exact Hm.
      * intros rest. rewrite findCommandIn_head, Hm.
        apply Nat.ltb_ge in Hge. rewrite Hge. reflexivity.
    + right. split.
      * intros [_ Hall].
        assert (signatureMatches data index (bytes command) 0 = true);
          [|congruence].
        apply signatureMatches_iff. intros k Hk. rewrite Nat.add_0_r. auto.
      * intros rest. rewrite findCommandIn_head, Hm.
        apply Nat.ltb_ge in Hge. rewrite Hge. reflexivity.
Qed.

Lemma findCommandIn_skips (before rest : list CommandDef) :
  Forall (fun d => ~ matchesAt (bytes d)) before ->
  findCommandIn (before ++ rest) data index = findCommandIn rest data index.
Proof.
  induction 1 as [|d before Hd _ IH]; [reflexivity|].
  rewrite <- app_comm_cons.
  destruct (matchesAt_dec d) as [[Hm _]|[_ Hskip]]; [contradiction|].
  rewrite Hskip. exact IH.
Qed.

Lemma findCommandIn_Some (registry : list CommandDef) (c : CommandDef) :
  findCommandIn registry data index = Some c ->
  exists before after,
    registry = before ++ c :: after /\
    matchesAt (bytes c) /\
    Forall (fun d => ~ matchesAt (bytes d)) before.
Proof.
  induction registry as [|d rest IH]; [discriminate|].
  destruct (matchesAt_dec d) as [[Hm Hhit]|[Hn Hskip]].
  - rewrite Hhit. intros H. injection H as <-.
    exists [], rest. auto.
  - rewrite Hskip. intros H.
    destruct (IH H) as (before & after & -> & Hm & Hall).
    exists (d :: before), after. auto.
Qed.

Lemma findCommandIn_None (registry : list CommandDef) :
  findCommandIn registry data index = None <->
  Forall (fun d => ~ matchesAt (bytes d)) registry.
Proof.
  split.
  - induction registry as [|d rest IH]; [constructor|].
    destruct (matchesAt_dec d) as [[Hm Hhit]|[Hn Hskip]].
    + rewrite Hhit. discriminate.
    + rewrite Hskip. auto.
  - intros Hall. rewrite <- (app_nil_r registry).
    rewrite findCommandIn_skips by exact Hall. reflexivity.
Qed.

(** With a matching definition in the registry, the result is that
    definition or one registered before it. *)
Lemma findCommandIn_first_of (before rest : list CommandDef)
  (c1 : CommandDef) :
  matchesAt (bytes c1) ->
  exists c, findCommandIn (before ++ c1 :: rest) data index = Some c /\
            In c (before ++ [c1]).
Proof.
  intros Hm1. induction before as [|d before IH].
  - exists c1. split; [|left; reflexivity]. simpl app.
    destruct (matchesAt_dec c1) as [[_ Hhit]|[Hn _]];
      [apply Hhit | contradiction].
  - rewrite <- !app_comm_cons.
    destruct (matchesAt_dec d) as [[_ Hhit]|[_ Hskip]].
    + exists d. split; [apply Hhit | left; reflexivity].
    + rewrite Hskip. destruct IH as (c & Hc & Hin).
      exists c. split; [exact Hc | right; exact Hin].
Qed.

End Registry.

(** C3. [findCommand] scans the registry in registration order and returns
    the first definition whose signature matches at [index]: the result is
    [Some c] exactly when [c] matches and no definition registered before it
    does, and [None] exactly when no definition matches; a definition whose
    signature extends past the end of the buffer does not match; and of two
    registered definitions that both match at [index] (as happens when one
    signature is a byte-prefix of the other) the later one never wins: the
    result is the earlier one or a definition registered before it, and with
    no match registered before the earlier one, the earlier one is the
    result.  [findCommand] is this scan over [COMMANDS]. *)
Theorem findCommand_first_match_wins :
  forall (registry : list CommandDef) (data : list N) (index : nat),
    (forall c,
        findCommandIn registry data index = Some c <->
        exists before after,
          registry = before ++ c :: after /\
          matchesAt data index (bytes c) /\
          Forall (fun d => ~ matchesAt data index (bytes d)) before) /\
    (findCommandIn registry data index = None <->
     Forall (fun d => ~ matchesAt data index (bytes d)) registry) /\
    (forall d, length data < index + length (bytes d) ->
               ~ matchesAt data index (bytes d)) /\
    (forall before c1 between c2 after,
        registry = before ++ c1 :: between ++ c2 :: after ->
        matchesAt data index (bytes c1) ->
        matchesAt data index (bytes c2) ->
        (exists c, findCommandIn registry data index = Some c /\
                   In c (before ++ [c1])) /\
        (Forall (fun d => ~ matchesAt data index (bytes d)) before ->
         findCommandIn registry data index = Some c1)) /\
    findCommand data index = findCommandIn COMMANDS data index.
Proof.
  intros registry data index.
  split; [|split; [|split; [|split; [|reflexivity]]]].
  - intros c. split; [apply findCommandIn_Some|].
    intros (before & after & -> & Hm & Hall).
    rewrite findCommandIn_skips by exact Hall.
    destruct (matchesAt_dec data index c) as [[_ Hhit]|[Hn _]];
      [apply Hhit | contradiction].
  - apply findCommandIn_None.
  - intros d Hlt [Hfit _]. lia.
  - intros before c1 between c2 after -> Hm1 _. split.
    + apply findCommandIn_first_of. exact Hm1.
    + intros Hall. rewrite findCommandIn_skips by exact Hall.
      destruct (matchesAt_dec data index c1) as [[_ Hhit]|[Hn _]];
        [apply Hhit | contradiction].
Qed.

(** A deliberately ordered pair: a one-byte signature that is a prefix of a
    two-byte one. *)
Definition shortCommand : CommandDef :=
  {| bytes := [0x1b]%N; name := "SHORT"; description := []; parse := None |}.
Definition longCommand : CommandDef :=
  {| bytes := [0x1b; 0x40]%N; name := "LONG"; description := [];
     parse := None |}.

Lemma matchesAt_decide (data : list N) (index : nat) (sig : list N) :
  (length data <? index + length sig) = false ->
  signatureMatches data index sig 0 = true ->
  matchesAt data index sig.
Proof.
  intros Hfit Hm. apply Nat.ltb_ge in Hfit. split; [lia|]. intros i Hi.
  apply signatureMatches_iff with (k := i) in Hm; [|exact Hi].
  rewrite Nat.add_0_r in Hm. exact Hm.
Qed.

Lemma findCommand_first_match_wins_witness :
  findCommandIn [shortCommand; longCommand] [0x1b; 0x40]%N 0
    = Some shortCommand /\
  findCommandIn [longCommand; shortCommand] [0x1b; 0x40]%N 0
    = Some longCommand.
Proof.
  assert (Hshort : matchesAt [0x1b; 0x40]%N 0 (bytes shortCommand))
    by (apply matchesAt_decide; reflexivity).
  assert (Hlong : matchesAt [0x1b; 0x40]%N 0 (bytes longCommand))
    by (apply matchesAt_decide; reflexivity).
  split.
  - destruct (findCommand_first_match_wins
                [shortCommand; longCommand] [0x1b; 0x40]%N 0)
      as (_ & _ & _ & Hpair & _).
    apply (proj2 (Hpair [] shortCommand [] longCommand [] eq_refl
                    Hshort Hlong)).
    constructor.
  - destruct (findCommand_first_match_wins
                [longCommand; shortCommand] [0x1b; 0x40]%N 0)
      as (_ & _ & _ & Hpair & _).
    apply (proj2 (Hpair [] longCommand [] shortCommand [] eq_refl
                    Hlong Hshort)).
    constructor.
Defined.

(** ** The text decoder *)

(** A small decoder to instantiate [iconv.decode] in examples: it knows the
    encoding [utf8] only, and there only 7-bit bytes; it fails otherwise. *)
Definition sampleDecode (textBytes : list N) (encoding : string)
  : option jsstring :=
  if String.eqb encoding "utf8" && forallb (fun b => (b <? 128)%N) textBytes
  then Some textBytes
  else None.

(** The last resort of the fallback chain: every byte rendered as the ASCII
    character of its low seven bits. *)
Definition asciiRendering (textBytes : list N) : jsstring :=
  map (fun b => N.land b 0x7f) textBytes.

Lemma firstn_min_length {A} (l : list A) (n : nat) :
  firstn (Nat.min (length l) n) l = firstn n l.
Proof.
  destruct (Nat.le_ge_cases (length l) n) as [Hle|Hge].
  - rewrite Nat.min_l by exact Hle.
    rewrite firstn_all, firstn_all2 by exact Hle. reflexivity.
  - rewrite Nat.min_r by exact Hge. reflexivity.
Qed.

(** What [decodeText] does when [iconv.decode] throws.  When the requested
    encoding decodes the run, that is the result.  When the call throws, the
    same bytes are decoded with the other encoding ([utf8] for a request of
    [gbk], [gbk] otherwise) and, if that call returns, that is the result; if
    it throws too, the result is the ASCII rendering of the first 50 bytes of
    the run (of all of them when there are fewer), so it has at most 50
    characters. *)
Lemma decodeText_fallback_chain :
  forall (iconv_decode : list N -> string -> option jsstring)
         (textBytes : list N) (encoding : string),
    let other := if String.eqb encoding "gbk" then "utf8" else "gbk" in
    (forall s, iconv_decode textBytes encoding = Some s ->
               decodeText iconv_decode textBytes encoding = s) /\
    (iconv_decode textBytes encoding = None ->
     (forall s, iconv_decode textBytes other = Some s ->
                decodeText iconv_decode textBytes encoding = s) /\
     (iconv_decode textBytes other = None ->
      decodeText iconv_decode textBytes encoding
        = asciiRendering (firstn 50 textBytes) /\
      length (decodeText iconv_decode textBytes encoding) <= 50)) /\
    (iconv_decode textBytes "gbk" = None ->
     forall s, iconv_decode textBytes "utf8" = Some s ->
               decodeText iconv_decode textBytes "gbk" = s) /\
    (iconv_decode textBytes "utf8" = None ->
     forall s, iconv_decode textBytes "gbk" = Some s ->
               decodeText iconv_decode textBytes "utf8" = s).
Proof.
  intros iconv_decode textBytes encoding other.
  assert (Hascii : toStringAscii textBytes (Nat.min (length textBytes) 50)
                   = asciiRendering (firstn 50 textBytes)).
  { unfold toStringAscii, asciiRendering. rewrite firstn_min_length.
    reflexivity. }
  repeat split.
  - intros s Hs. unfold decodeText. rewrite Hs. reflexivity.
  - intros s Hs. unfold decodeText, tryAlternativeEncoding.
    rewrite H. fold other. rewrite Hs. reflexivity.
  - unfold decodeText, tryAlternativeEncoding.
    rewrite H. fold other. rewrite H0. exact Hascii.
  - unfold decodeText, tryAlternativeEncoding.
    rewrite H. fold other. rewrite H0, Hascii.
    unfold asciiRendering. rewrite length_map, length_firstn. lia.
  - intros Hgbk s Hs. unfold decodeText, tryAlternativeEncoding.
    rewrite Hgbk. simpl. rewrite Hs. reflexivity.
  - intros Hutf s Hs. unfold decodeText, tryAlternativeEncoding.
    rewrite Hutf. simpl. rewrite Hs. reflexivity.
Qed.

(** iconv-lite does not report malformed input.  For an encoding it
    supports, [iconv.decode] returns a string for every buffer, with U+FFFD
    in place of each byte sequence it cannot map; it throws only for an
    encoding name it does not know.  [alwaysDecodes iconv_decode encoding]
    states the first of these for one encoding name. *)
Definition alwaysDecodes (iconv_decode : list N -> string -> option jsstring)
  (encoding : string) : Prop :=
  forall textBytes, exists s, iconv_decode textBytes encoding = Some s.

(** A decoder with that behaviour, on tables cut down to the bytes of the
    examples.  It knows the two encoding names [gbk] and [utf8] and fails for
    any other name.  A byte below 0x80 is itself in both.  Of the GBK table it
    holds the pairs C4 E3 (U+4F60) and E2 82 (U+9227); of UTF-8 the sequence
    E2 82 AC (U+20AC).  Every other byte comes out as U+FFFD, as a byte does
    that iconv-lite cannot place. *)
Fixpoint gbkSample (textBytes : list N) : jsstring :=
  match textBytes with
  | [] => []
  | b :: rest =>
      match rest with
      | c :: rest' =>
          if ((b =? 0xc4) && (c =? 0xe3))%N then 0x4f60%N :: gbkSample rest'
          else if ((b =? 0xe2) && (c =? 0x82))%N then 0x9227%N :: gbkSample rest'
          else (if (b <? 0x80)%N then b else 0xfffd%N) :: gbkSample rest
      | [] => [if (b <? 0x80)%N then b else 0xfffd%N]
      end
  end.

Fixpoint utf8Sample (textBytes : list N) : jsstring :=
  match textBytes with
  | [] => []
  | b :: rest =>
      match rest with
      | c :: d :: rest' =>
          if ((b =? 0xe2) && (c =? 0x82) && (d =? 0xac))%N
          then 0x20ac%N :: utf8Sample rest'
          else (if (b <? 0x80)%N then b else 0xfffd%N) :: utf8Sample rest
      | _ => (if (b <? 0x80)%N then b else 0xfffd%N) :: utf8Sample rest
      end
  end.

Definition replacingDecode (textBytes : list N) (encoding : string)
  : option jsstring :=
  if String.eqb encoding "gbk" then Some (gbkSample textBytes)
  else if String.eqb encoding "utf8" then Some (utf8Sample textBytes)
  else None.

(** C2.  The fallback of [decodeText] is tied to [iconv.decode] throwing, and
    a decoder that returns a string for every [gbk] request, as iconv-lite
    does, never throws there.  With such a decoder, for every byte run: a
    request of [gbk] yields what [iconv.decode] makes of the bytes as [gbk],
    malformed or not, and the [utf8] decoding is not consulted; a request
    that throws (an encoding name that is not known) yields the [gbk]
    decoding, so the ASCII rendering is never reached; and the result of a
    [gbk] request is the [utf8] decoding of the bytes only where the two
    decodings are the same string.  So a run requested as [gbk] whose bytes
    are not valid GBK does not yield the [utf8] decoding of those bytes. *)
Theorem decodeText_never_falls_back :
  forall (iconv_decode : list N -> string -> option jsstring),
    alwaysDecodes iconv_decode "gbk" ->
    forall (textBytes : list N),
      iconv_decode textBytes "gbk"
        = Some (decodeText iconv_decode textBytes "gbk") /\
      (forall encoding,
          iconv_decode textBytes encoding = None ->
          iconv_decode textBytes "gbk"
            = Some (decodeText iconv_decode textBytes encoding)) /\
      (forall utf8Text,
          iconv_decode textBytes "utf8" = Some utf8Text ->
          (decodeText iconv_decode textBytes "gbk" = utf8Text <->
           iconv_decode textBytes "gbk" = Some utf8Text)).
Proof.
  intros iconv_decode Hgbk textBytes.
  destruct (Hgbk textBytes) as [gbkText Hdec].
  assert (Hfirst : decodeText iconv_decode textBytes "gbk" = gbkText).
  { unfold decodeText. rewrite Hdec. reflexivity. }
  split; [rewrite Hfirst; exact Hdec|]. split.
  - intros encoding Hthrows.
    unfold decodeText, tryAlternativeEncoding. rewrite Hthrows.
    destruct (String.eqb_spec encoding "gbk") as [->|_]; [congruence|].
    rewrite Hdec. reflexivity.
  - intros utf8Text _. rewrite Hfirst, Hdec. split; congruence.
Qed.

Lemma decodeText_never_falls_back_witness :
  decodeText replacingDecode [0xe2; 0x82; 0xac]%N "gbk" = [0x9227; 0xfffd]%N /\
  replacingDecode [0xe2; 0x82; 0xac]%N "utf8" = Some [0x20ac]%N /\
  decodeText replacingDecode [0xe2; 0x82; 0xac]%N "gbk" <> [0x20ac]%N.
Proof.
  assert (Hgbk : alwaysDecodes replacingDecode "gbk")
    by (intros textBytes; eexists; reflexivity).
  destruct (decodeText_never_falls_back replacingDecode Hgbk
              [0xe2; 0x82; 0xac]%N) as (Hfirst & _ & Hsame).
  split; [|split; [reflexivity|]].
  - change (replacingDecode [0xe2; 0x82; 0xac]%N "gbk")
      with (Some [0x9227; 0xfffd]%N) in Hfirst.
    congruence.
  - intros Heq.
    apply (Hsame [0x20ac]%N eq_refl) in Heq. vm_compute in Heq. discriminate.
Defined.

(** ** The tokenizer on a single command *)

Definition itemCommand (it : Item) : option string :=
  match it with
  | CommandItem command _ _ _ _ => Some command
  | TextItem _ _ _ _ _ => None
  end.

(** Every [parse] function of the table builds a command item that carries
    the name of its own definition. *)
Lemma COMMANDS_names :
  Forall (fun c => forall p data index,
              parse c = Some p -> itemCommand (p data index) = Some (name c))
         COMMANDS.
Proof.
  unfold COMMANDS.
  repeat (apply Forall_cons;
          [ intros p data index Hp; injection Hp as <-; reflexivity | ]).
  apply Forall_nil.
Qed.

Section SingleCommand.

Variable iconv_decode : list N -> string -> option jsstring.

(** C8. Round trip: the signature bytes of any registered command, alone in
    a buffer, tokenize to exactly one item, a command item with the declared
    name of that command (and no parameter value). *)
Theorem tokenize_signature_roundtrip :
  forall (encoding : string) (c : CommandDef),
    In c COMMANDS ->
    exists it,
      parseBuffer iconv_decode (bytes c) encoding = [it] /\
      itemCommand it = Some (name c) /\
      itemValue it = None.
Proof.
  intros encoding c Hin. unfold COMMANDS in Hin. simpl in Hin.
  repeat (destruct Hin as [<-|Hin];
          [ eexists; split; [vm_compute; reflexivity | split; reflexivity] | ]).
  contradiction.
Qed.

End SingleCommand.

Lemma tokenize_signature_roundtrip_witness :
  exists it,
    parseBuffer sampleDecode (bytes CUT_PAPER) "gbk" = [it] /\
    itemCommand it = Some (name CUT_PAPER) /\
    itemValue it = None.
Proof.
  apply (tokenize_signature_roundtrip sampleDecode "gbk" CUT_PAPER).
  simpl. tauto.
Defined.

(** ** The tokenizer as a partition of the buffer *)

(** What a run of the tokenizer does with the bytes: it turns some into an
    item and passes over others. *)
Inductive Segment : Type :=
| Token (it : Item)
| Skipped (byte : N).

(** The signature registered under a command name. *)
Definition signatureOf (command : string) : list N :=
  match find (fun d => String.eqb (name d) command) COMMANDS with
  | Some d => bytes d
  | None => []
  end.

(** The bytes an item stands for: the signature of a command followed by its
    parameter byte when it has one; the byte run of a text item. *)
Definition consumedBytes (it : Item) : list N :=
  match it with
  | CommandItem command value _ _ _ =>
      signatureOf command ++ match value with Some v => [v] | None => [] end
  | TextItem _ _ bytes _ _ => bytes
  end.

Definition segmentBytes (seg : Segment) : list N :=
  match seg with
  | Token it => consumedBytes it
  | Skipped b => [b]
  end.

Definition tokensOf (segs : list Segment) : list Item :=
  flat_map (fun seg => match seg with Token it => [it] | Skipped _ => [] end)
           segs.

Definition skippable (b : N) : Prop :=
  isPrintableChar b = false /\ isNewLine b = false.

(** Walking the segments from the byte offset [offset]: at every text item
    no command matches at any position of its byte run, and when a command
    matches at the position right after the run, the next segment is the
    item [parseCommand] builds for that command there. *)
Fixpoint textRunsYieldToCommands (buffer : list N) (offset : nat)
  (segs : list Segment) : Prop :=
  match segs with
  | [] => True
  | seg :: rest =>
      match seg with
      | Token (TextItem _ _ run _ _) =>
          (forall p, offset <= p < offset + length run ->
                     findCommand buffer p = None) /\
          (forall c, findCommand buffer (offset + length run) = Some c ->
                     exists it rest',
                       item (parseCommand buffer (offset + length run) c)
                         = Some it /\
                       itemCommand it = Some (name c) /\
                       rest = Token it :: rest')
      | _ => True
      end /\
      textRunsYieldToCommands buffer (offset + length (segmentBytes seg)) rest
  end.

Lemma textRunsYieldToCommands_skipped (buffer : list N) (l : list N)
  (rest : list Segment) :
  forall offset,
    textRunsYieldToCommands buffer (offset + length l) rest ->
    textRunsYieldToCommands buffer offset (map Skipped l ++ rest).
Proof.
  induction l as [|b l IH]; intros offset H; simpl in *.
  - rewrite Nat.add_0_r in H. exact H.
  - split; [exact I|]. apply IH.
    replace (offset + 1 + length l) with (offset + S (length l)) by lia.
    exact H.
Qed.

(** Walking the segments from the byte offset [offset]: a segment that
    starts at a position where a command matches is the item [parseCommand]
    builds for that command there; a skipped byte is never at such a
    position, and no position of the byte run of a text item is one. *)
Fixpoint commandsHavePriority (buffer : list N) (offset : nat)
  (segs : list Segment) : Prop :=
  match segs with
  | [] => True
  | seg :: rest =>
      (forall c, findCommand buffer offset = Some c ->
                 exists it,
                   item (parseCommand buffer offset c) = Some it /\
                   itemCommand it = Some (name c) /\
                   seg = Token it) /\
      match seg with
      | Token (TextItem _ _ run _ _) =>
          forall p, offset <= p < offset + length run ->
                    findCommand buffer p = None
      | Token (CommandItem _ _ _ _ _) => True
      | Skipped _ => findCommand buffer offset = None
      end /\
      commandsHavePriority buffer (offset + length (segmentBytes seg)) rest
  end.

Lemma commandsHavePriority_skipped (buffer : list N) (l : list N)
  (rest : list Segment) :
  forall offset,
    (forall p, offset <= p < offset + length l -> findCommand buffer p = None) ->
    commandsHavePriority buffer (offset + length l) rest ->
    commandsHavePriority buffer offset (map Skipped l ++ rest).
Proof.
  induction l as [|b l IH]; intros offset Hclear H;
    cbn [map app length commandsHavePriority segmentBytes] in *.
  - rewrite Nat.add_0_r in H. exact H.
  - assert (H0 : findCommand buffer offset = None) by (apply Hclear; lia).
    split; [intros c Hc; congruence|]. split; [exact H0|].
    apply IH.
    + intros p Hp. apply Hclear. lia.
    + replace (offset + 1 + length l) with (offset + S (length l)) by lia.
      exact H.
Qed.

Lemma skipn_nth_error {A} (l : list A) (i : nat) (b : A) :
  nth_error l i = Some b -> skipn i l = b :: skipn (S i) l.
Proof.
  revert i. induction l as [|x l IH]; intros [|i] H; simpl in *;
    try discriminate.
  - injection H as ->. reflexivity.
  - rewrite (IH i H). reflexivity.
Qed.

(** Every registered command has a two-byte signature, is found again
    under its own name, and has a [parse] function that builds a command item
    with that name whose value is the byte at [index + 2], or is absent. *)
Definition commandShape (c : CommandDef) : Prop :=
  length (bytes c) = 2 /\
  signatureOf (name c) = bytes c /\
  exists p, parse c = Some p /\
    forall data index, exists v w h d,
      p data index = CommandItem (name c) v w h d /\
      (v = nth_error data (index + 2) \/ v = None).

Lemma COMMANDS_shape : Forall commandShape COMMANDS.
Proof.
  unfold COMMANDS.
  repeat (apply Forall_cons;
          [ split; [reflexivity | split; [reflexivity |
              eexists; split; [reflexivity |
                intros data index; do 4 eexists; split; [reflexivity | auto]]]]
          | ]).
  apply Forall_nil.
Qed.

Lemma findCommand_fits (data : list N) (index : nat) (c : CommandDef) :
  findCommand data index = Some c -> index + 2 <= length data.
Proof.
  unfold findCommand. intros Hfind.
  destruct (@findCommandIn_sound COMMANDS data index c Hfind) as [Hin Hfit].
  pose proof COMMANDS_shape as Hall. rewrite Forall_forall in Hall.
  destruct (Hall c Hin) as (H2 & _). lia.
Qed.

(** Every registered signature is ESC or GS followed by a byte that is
    neither, so no signature starts at the second byte of another. *)
Lemma COMMANDS_signature_bytes :
  Forall (fun c => exists b1 b2,
              bytes c = [b1; b2] /\ (b1 = 0x1b%N \/ b1 = 0x1d%N) /\
              b2 <> 0x1b%N /\ b2 <> 0x1d%N) COMMANDS.
Proof.
  unfold COMMANDS.
  repeat (apply Forall_cons;
          [ do 2 eexists; split; [reflexivity|];
            split; [auto | split; discriminate] | ]).
  apply Forall_nil.
Qed.

Lemma findCommand_signature_bytes (data : list N) (index : nat)
  (c : CommandDef) :
  findCommand data index = Some c ->
  (nth_error data index = Some 0x1b%N \/ nth_error data index = Some 0x1d%N) /\
  exists b, nth_error data (index + 1) = Some b /\
            b <> 0x1b%N /\ b <> 0x1d%N.
Proof.
  intros Hfind. unfold findCommand in Hfind.
  apply findCommandIn_Some in Hfind as (before & after & Hreg & [_ Hm] & _).
  assert (Hin : In c COMMANDS) by (rewrite Hreg; apply in_elt).
  pose proof COMMANDS_signature_bytes as Hall. rewrite Forall_forall in Hall.
  destruct (Hall c Hin) as (b1 & b2 & Hsig & Hb1 & Hb2).
  rewrite Hsig in Hm.
  pose proof (Hm 0 ltac:(simpl; lia)) as H0.
  pose proof (Hm 1 ltac:(simpl; lia)) as H1.
  rewrite Nat.add_0_r in H0. simpl in H0, H1.
  split.
  - rewrite H0. destruct Hb1 as [->| ->]; auto.
  - exists b2. split; [exact H1 | exact Hb2].
Qed.

(** The step at a position where a command matches: the item of that command,
    and the cursor moved past the two signature bytes and past the parameter
    byte when the item has a value, which then is the byte at [index + 2]. *)
Lemma parseCommand_step (buffer : list N) (index : nat) (c : CommandDef) :
  findCommand buffer index = Some c ->
  exists it,
    item (parseCommand buffer index c) = Some it /\
    itemCommand it = Some (name c) /\
    ((itemValue it = None /\
      nextIndex (parseCommand buffer index c) = index + 2) \/
     (exists b, itemValue it = Some b /\
                nth_error buffer (index + 2) = Some b /\
                nextIndex (parseCommand buffer index c) = index + 3)).
Proof.
  intros Hfind.
  destruct (@findCommandIn_sound COMMANDS buffer index c Hfind) as [Hin _].
  pose proof COMMANDS_shape as Hall. rewrite Forall_forall in Hall.
  destruct (Hall c Hin) as (H2 & _ & p & Hp & Hitem).
  destruct (Hitem buffer index) as (v & w & h & d & Hpi & Hv).
  exists (CommandItem (name c) v w h d).
  unfold parseCommand. rewrite Hp, Hpi, H2. cbn [item nextIndex itemValue].
  split; [reflexivity|]. split; [reflexivity|].
  destruct v as [b|].
  - right. exists b. destruct Hv as [Hv|Hv]; [|discriminate].
    split; [reflexivity|]. split; [symmetry; exact Hv|]. lia.
  - left. split; [reflexivity | lia].
Qed.

Lemma tokensOf_app (l1 l2 : list Segment) :
  tokensOf (l1 ++ l2) = tokensOf l1 ++ tokensOf l2.
Proof. apply flat_map_app. Qed.

Lemma tokensOf_skipped (l : list N) : tokensOf (map Skipped l) = [].
Proof. induction l; simpl; auto. Qed.

Lemma bytes_skipped (l : list N) :
  concat (map segmentBytes (map Skipped l)) = l.
Proof. induction l; simpl; congruence. Qed.

Lemma in_skipped (l : list N) (b : N) : In (Skipped b) (map Skipped l) -> In b l.
Proof.
  rewrite in_map_iff. intros (x & Hx & Hin). injection Hx as ->. exact Hin.
Qed.

Lemma matchesAt_firstn (data : list N) (sig : list N) :
  forall index,
    matchesAt data index sig ->
    firstn (length sig) (skipn index data) = sig.
Proof.
  induction sig as [|b rest IH]; intros index [Hfit Hall]; [reflexivity|].
  simpl in Hfit.
  pose proof (Hall 0 ltac:(simpl; lia)) as H0.
  rewrite Nat.add_0_r in H0. simpl in H0.
  rewrite (skipn_nth_error data index b H0). cbn [length firstn]. f_equal.
  apply IH. split; [lia|]. intros i Hi.
  specialize (Hall (S i) ltac:(simpl; lia)). simpl in Hall.
  rewrite <- Hall. f_equal. lia.
Qed.

Lemma firstn_plus {A} (n m : nat) (l : list A) :
  firstn (n + m) l = firstn n l ++ firstn m (skipn n l).
Proof.
  revert l. induction n as [|n IH]; intros l; [reflexivity|].
  destruct l as [|x l]; simpl.
  - rewrite firstn_nil. reflexivity.
  - rewrite IH. reflexivity.
Qed.

Lemma app_eq_length {A} (a a' b b' : list A) :
  a ++ b = a' ++ b' -> length a = length a' -> a = a' /\ b = b'.
Proof.
  revert a'. induction a as [|x a IH]; intros [|x' a'] Heq Hlen;
    simpl in *; try discriminate; auto.
  injection Heq as -> Heq. destruct (IH a' Heq) as [-> ->]; auto.
Qed.

Section Trace.

Variable iconv_decode : list N -> string -> option jsstring.
Variables (buffer : list N) (encoding : string).

(** [buffer.slice(i, j)]. *)
Definition slice (i j : nat) : list N := firstn (j - i) (skipn i buffer).

(** The successive steps of the loop of [parseBuffer] from a cursor
    position: each cursor position with the result of [parseNextItem]
    there. *)
Equations parseBuffer_steps (index : nat) : list (nat * ParseResult)
  by wf (length buffer - index) lt :=
parseBuffer_steps index with inspect (index <? length buffer) := {
  | exist _ true Hlt =>
      (index, parseNextItem iconv_decode buffer index encoding)
      :: parseBuffer_steps
           (nextIndex (parseNextItem iconv_decode buffer index encoding))
  | exist _ false _ => [] }.
Next Obligation.
  apply Nat.ltb_lt in Hlt.
  pose proof (@parseNextItem_progress iconv_decode buffer index encoding Hlt).
  lia.
Qed.

(** The segments of one step: the bytes between the cursor and the bytes of
    the item are skipped bytes. *)
Definition segmentsOfStep (st : nat * ParseResult) : list Segment :=
  let (index, pr) := st in
  match item pr with
  | Some it =>
      map Skipped (slice index (nextIndex pr - length (consumedBytes it)))
      ++ [Token it]
  | None => map Skipped (slice index (nextIndex pr))
  end.

Definition segmentsFrom (index : nat) : list Segment :=
  flat_map segmentsOfStep (parseBuffer_steps index).

Definition segments : list Segment := segmentsFrom 0.

Lemma parseBuffer_steps_step (index : nat) :
  parseBuffer_steps index =
  if index <? length buffer then
    (index, parseNextItem iconv_decode buffer index encoding)
    :: parseBuffer_steps
         (nextIndex (parseNextItem iconv_decode buffer index encoding))
  else [].
Proof.
  etransitivity; [ apply parseBuffer_steps_equation_1 | ].
  generalize (inspect (index <? length buffer)).
  intros [[|] Hlt]; cbn [parseBuffer_steps_unfold_clause_1];
    rewrite Hlt; reflexivity.
Qed.

(** Induction along the cursor positions of the outer loop. *)
Lemma cursor_ind (P : nat -> Prop) :
  (forall index,
      (index < length buffer ->
       P (nextIndex (parseNextItem iconv_decode buffer index encoding))) ->
      P index) ->
  forall index, P index.
Proof.
  intros Hstep.
  assert (H : forall n index, length buffer - index <= n -> P index).
  { induction n as [|n IH]; intros index Hn; apply Hstep; intros Hlt.
    - lia.
    - apply IH.
      pose proof (@parseNextItem_progress iconv_decode buffer index encoding Hlt).
      lia. }
  intros index. apply (H (length buffer - index)). lia.
Qed.

(** Induction along the positions of the inner loop of [parseTextData]. *)
Lemma textLoop_ind (P : nat -> list N -> Prop) :
  (forall index textBytes,
      (index < length buffer -> forall textBytes', P (index + 1) textBytes') ->
      P index textBytes) ->
  forall index textBytes, P index textBytes.
Proof.
  intros Hstep.
  assert (H : forall n index textBytes,
             length buffer - index <= n -> P index textBytes).
  { induction n as [|n IH]; intros index textBytes Hn; apply Hstep;
      intros Hlt textBytes'.
    - lia.
    - apply IH. lia. }
  intros index textBytes. apply (H (length buffer - index)). lia.
Qed.

Lemma slice_nil (i : nat) : slice i i = [].
Proof. unfold slice. rewrite Nat.sub_diag. reflexivity. Qed.

Lemma slice_cons (i j : nat) (b : N) :
  nth_error buffer i = Some b -> i < j -> slice i j = b :: slice (i + 1) j.
Proof.
  intros Hb Hlt. unfold slice. rewrite (skipn_nth_error buffer i b Hb).
  replace (j - i) with (S (j - (i + 1))) by lia.
  rewrite Nat.add_1_r. reflexivity.
Qed.

Lemma skipn_slice (i j : nat) :
  i <= j -> skipn i buffer = slice i j ++ skipn j buffer.
Proof.
  intros Hle. unfold slice.
  replace (skipn j buffer) with (skipn (j - i) (skipn i buffer)).
  - symmetry. apply firstn_skipn.
  - rewrite skipn_skipn. f_equal. lia.
Qed.

Lemma length_slice (i j : nat) :
  j <= length buffer -> length (slice i j) = j - i.
Proof.
  intros Hj. unfold slice. rewrite length_firstn, length_skipn. lia.
Qed.

(** [o] is the text item of the byte run [bs], or no item when the run is
    empty. *)
Definition isTextOf (o : option Item) (bs : list N) : Prop :=
  match o with
  | None => bs = []
  | Some (TextItem _ _ bytes _ _) => bytes = bs /\ bs <> []
  | Some (CommandItem _ _ _ _ _) => False
  end.

Lemma finishTextData_isTextOf (textBytes : list N) (index : nat) :
  isTextOf (item (finishTextData iconv_decode textBytes encoding index))
           textBytes.
Proof.
  unfold finishTextData. destruct textBytes; simpl;
    [reflexivity | split; [reflexivity | discriminate]].
Qed.

Lemma isSome_false {A} (o : option A) : isSome o = false -> o = None.
Proof. destruct o; [discriminate | reflexivity]. Qed.

(** The inner loop from any of its states: no command matches at a position
    it passes; the bytes it passes are skipped bytes followed by a run, the
    skipped ones only while the run is empty; the item is the text item of
    the whole run. *)
Lemma parseTextData_loop_spec :
  forall index textBytes,
    index <= length buffer ->
    (forall p,
        index <= p < nextIndex (parseTextData_loop iconv_decode buffer encoding
                                  index textBytes) ->
        findCommand buffer p = None) /\
    exists skipped run,
      slice index (nextIndex (parseTextData_loop iconv_decode buffer encoding
                                index textBytes)) = skipped ++ run /\
      (textBytes <> [] -> skipped = []) /\
      Forall skippable skipped /\
      isTextOf (item (parseTextData_loop iconv_decode buffer encoding
                        index textBytes)) (textBytes ++ run).
Proof.
  intros index textBytes. pattern index, textBytes. apply textLoop_ind.
  clear index textBytes. intros index textBytes IH Hle.
  assert (Hstop : forall tb,
    (forall p, index <= p < nextIndex (finishTextData iconv_decode tb encoding index) ->
               findCommand buffer p = None) /\
    exists skipped run,
      slice index (nextIndex (finishTextData iconv_decode tb encoding index))
        = skipped ++ run /\
      (tb <> [] -> skipped = []) /\
      Forall skippable skipped /\
      isTextOf (item (finishTextData iconv_decode tb encoding index)) (tb ++ run)).
  { intros tb. split.
    - intros p Hp. rewrite finishTextData_nextIndex in Hp. lia.
    - exists [], []. rewrite finishTextData_nextIndex, slice_nil.
      repeat split; auto.
      rewrite app_nil_r. apply finishTextData_isTextOf. }
  rewrite parseTextData_loop_step.
  destruct (nth_error buffer index) as [byte|] eqn:Hbyte; [|apply Hstop].
  assert (Hlt : index < length buffer) by (apply nth_error_Some; congruence).
  destruct (isSome (findCommand buffer index)) eqn:Hcmd; [apply Hstop|].
  apply isSome_false in Hcmd.
  destruct (isNewLine byte) eqn:Hnl.
  { destruct (nonEmpty textBytes) eqn:Hne; [apply Hstop|].
    destruct textBytes; [|discriminate]. simpl. split.
    - intros p Hp. replace p with index by lia. exact Hcmd.
    - exists [], [byte]. rewrite (slice_cons index (index + 1) byte Hbyte) by lia.
      rewrite slice_nil. repeat split; auto. discriminate. }
  destruct (isPrintableChar byte) eqn:Hpr.
  { specialize (IH Hlt (textBytes ++ [byte]) ltac:(lia)).
    destruct IH as [Hclear (skipped & run & Hslice & Hsk & _ & Htext)].
    pose proof (@parseTextData_loop_bounds iconv_decode buffer encoding
                  (length buffer) (index + 1) (textBytes ++ [byte])
                  ltac:(lia) ltac:(lia)) as Hb.
    split.
    - intros p Hp. destruct (Nat.eq_dec p index) as [->|]; [exact Hcmd|].
      apply Hclear. lia.
    - exists [], (byte :: run).
      rewrite (slice_cons index _ byte Hbyte) by lia.
      rewrite Hslice, Hsk by (destruct textBytes; discriminate).
      repeat split; auto.
      rewrite <- app_assoc in Htext. exact Htext. }
  destruct (nonEmpty textBytes) eqn:Hne; [apply Hstop|].
  destruct textBytes; [|discriminate].
  specialize (IH Hlt [] ltac:(lia)).
  destruct IH as [Hclear (skipped & run & Hslice & _ & Hall & Htext)].
  pose proof (@parseTextData_loop_bounds iconv_decode buffer encoding
                (length buffer) (index + 1) [] ltac:(lia) ltac:(lia)) as Hb.
  split.
  - intros p Hp. destruct (Nat.eq_dec p index) as [->|]; [exact Hcmd|].
    apply Hclear. lia.
  - exists (byte :: skipped), run.
    rewrite (slice_cons index _ byte Hbyte) by lia. rewrite Hslice.
    repeat split; auto.
    + intros H. contradiction.
    + constructor; [split; assumption | exact Hall].
Qed.

(** The byte run of the text item the inner loop builds: printable bytes
    only, or, for the item of a lone line terminator, that one byte. *)
Lemma parseTextData_loop_run :
  forall index textBytes,
    Forall (fun b => isPrintableChar b = true) textBytes ->
    match item (parseTextData_loop iconv_decode buffer encoding
                  index textBytes) with
    | Some (TextItem _ text run _ _) =>
        Forall (fun b => isPrintableChar b = true) run \/
        (exists b, run = [b] /\ isNewLine b = true /\ text = [10%N])
    | _ => True
    end.
Proof.
  intros index textBytes. pattern index, textBytes. apply textLoop_ind.
  clear index textBytes. intros index textBytes IH Hall.
  assert (Hstop :
    match item (finishTextData iconv_decode textBytes encoding index) with
    | Some (TextItem _ text run _ _) =>
        Forall (fun b => isPrintableChar b = true) run \/
        (exists b, run = [b] /\ isNewLine b = true /\ text = [10%N])
    | _ => True
    end).
  { unfold finishTextData. destruct (nonEmpty textBytes); simpl; auto. }
  rewrite parseTextData_loop_step.
  destruct (nth_error buffer index) as [byte|] eqn:Hbyte; [|exact Hstop].
  assert (Hlt : index < length buffer) by (apply nth_error_Some; congruence).
  destruct (isSome (findCommand buffer index)); [exact Hstop|].
  destruct (isNewLine byte) eqn:Hnl.
  { destruct (nonEmpty textBytes); [exact Hstop|].
    simpl. right. exists byte. auto. }
  destruct (isPrintableChar byte) eqn:Hpr.
  { apply (IH Hlt). apply Forall_app. split; [exact Hall|].
    constructor; [exact Hpr | constructor]. }
  destruct (nonEmpty textBytes); [exact Hstop|].
  apply (IH Hlt). exact Hall.
Qed.

Lemma slice_app (i j k : nat) :
  i <= j -> j <= k -> slice i k = slice i j ++ slice j k.
Proof.
  intros Hij Hjk. unfold slice.
  replace (k - i) with ((j - i) + (k - j)) by lia.
  rewrite firstn_plus, skipn_skipn.
  replace (j - i + i) with j by lia. reflexivity.
Qed.

Lemma slice_prefix (i k : nat) (a b : list N) :
  i <= k -> k <= length buffer ->
  slice i k = a ++ b -> slice i (k - length b) = a.
Proof.
  intros Hik Hk Hslice.
  assert (Hlen : k - i = length a + length b).
  { rewrite <- (length_slice i k Hk), Hslice. apply length_app. }
  rewrite (slice_app i (k - length b) k) in Hslice by lia.
  apply app_eq_length in Hslice; [tauto|].
  rewrite length_slice by lia. lia.
Qed.

(** The three shapes of a step of the outer loop at a cursor inside the
    buffer: a command; skipped bytes only; skipped bytes and then a text
    item.  In each the segments of the step spell the bytes between the
    cursor and [nextIndex]. *)
Inductive StepShape (index : nat) (pr : ParseResult) : Prop :=
| CommandStep (c : CommandDef) (it : Item) :
    findCommand buffer index = Some c ->
    pr = parseCommand buffer index c ->
    item pr = Some it ->
    itemCommand it = Some (name c) ->
    consumedBytes it = slice index (nextIndex pr) ->
    segmentsOfStep (index, pr) = [Token it] ->
    StepShape index pr
| SkipStep (skipped : list N) :
    findCommand buffer index = None ->
    item pr = None ->
    Forall skippable skipped ->
    skipped = slice index (nextIndex pr) ->
    segmentsOfStep (index, pr) = map Skipped skipped ->
    StepShape index pr
| TextStep (skipped : list N) (d t : jsstring) (run : list N) (e : string)
    (ds : jsstring) :
    findCommand buffer index = None ->
    item pr = Some (TextItem d t run e ds) ->
    run <> [] ->
    Forall skippable skipped ->
    skipped ++ run = slice index (nextIndex pr) ->
    (forall p, index <= p < nextIndex pr -> findCommand buffer p = None) ->
    segmentsOfStep (index, pr) = map Skipped skipped ++ [Token (TextItem d t run e ds)] ->
    StepShape index pr.

Lemma step_shape (index : nat) :
  index < length buffer ->
  StepShape index (parseNextItem iconv_decode buffer index encoding).
Proof.
  intros Hlt.
  pose proof (@parseNextItem_progress iconv_decode buffer index encoding Hlt)
    as Hb.
  unfold parseNextItem in *.
  destruct (findCommand buffer index) as [c|] eqn:Hfind.
  - pose proof Hfind as Hfind'. unfold findCommand in Hfind'.
    apply findCommandIn_Some in Hfind'
      as (before & after & Hreg & Hmatch & _).
    assert (Hin : In c COMMANDS) by (rewrite Hreg; apply in_elt).
    pose proof COMMANDS_shape as Hall. rewrite Forall_forall in Hall.
    destruct (Hall c Hin) as (H2 & Hsig & p & Hp & Hitem).
    destruct (Hitem buffer index) as (v & w & h & d & Hpi & Hv).
    apply matchesAt_firstn in Hmatch. rewrite H2 in Hmatch.
    assert (Hsl2 : slice index (index + 2) = bytes c).
    { unfold slice. replace (index + 2 - index) with 2 by lia. exact Hmatch. }
    assert (Hpc : parseCommand buffer index c =
                  {| item := Some (CommandItem (name c) v w h d);
                     nextIndex := index + 2
                                  + match v with Some _ => 1 | None => 0 end |}).
    { unfold parseCommand. rewrite Hp, Hpi, H2. simpl.
      destruct v; [reflexivity | rewrite Nat.add_0_r; reflexivity]. }
    rewrite Hpc in Hb. simpl in Hb.
    assert (Hcons : consumedBytes (CommandItem (name c) v w h d)
                    = slice index (index + 2
                                   + match v with Some _ => 1 | None => 0 end)).
    { cbn [consumedBytes]. rewrite Hsig.
      destruct v as [x|].
      - destruct Hv as [Hv|Hv]; [|discriminate]. symmetry in Hv.
        rewrite (slice_app index (index + 2) (index + 2 + 1)) by lia.
        rewrite Hsl2. f_equal.
        rewrite (slice_cons (index + 2) (index + 2 + 1) x Hv) by lia.
        rewrite slice_nil. reflexivity.
      - rewrite app_nil_r, Nat.add_0_r. symmetry. exact Hsl2. }
    apply (CommandStep index _ c (CommandItem (name c) v w h d));
      rewrite ?Hpc; auto.
    unfold segmentsOfStep. cbn [item nextIndex].
    rewrite Hcons, length_slice by lia.
    replace (_ - _) with index by lia.
    rewrite slice_nil. reflexivity.
  - unfold parseTextData in *.
    destruct (parseTextData_loop_spec index [] ltac:(lia))
      as [Hclear (skipped & run & Hslice & _ & Hskip & Htext)].
    simpl in Htext.
    set (pr := parseTextData_loop iconv_decode buffer encoding index []) in *.
    destruct (item pr) as [[? ? ? ? ?|d t bytes e ds]|] eqn:Hitem;
      simpl in Htext; [contradiction| |].
    + destruct Htext as [-> Hne].
      apply (TextStep index pr skipped d t run e ds); auto.
      unfold segmentsOfStep. rewrite Hitem. cbn [consumedBytes].
      rewrite (slice_prefix index (nextIndex pr) skipped run
                 ltac:(lia) ltac:(lia) Hslice).
      reflexivity.
    + subst run. rewrite app_nil_r in Hslice.
      apply (SkipStep index pr skipped); auto.
      unfold segmentsOfStep. rewrite Hitem, Hslice. reflexivity.
Qed.

Lemma StepShape_spec (index : nat) (pr : ParseResult) :
  StepShape index pr ->
  concat (map segmentBytes (segmentsOfStep (index, pr)))
    = slice index (nextIndex pr) /\
  (forall b, In (Skipped b) (segmentsOfStep (index, pr)) -> skippable b) /\
  tokensOf (segmentsOfStep (index, pr))
    = match item pr with Some it => [it] | None => [] end.
Proof.
  intros [c it _ _ Hitem _ Hcons Hsegs
         |skipped _ Hitem Hskip Hslice Hsegs
         |skipped d t run e ds _ Hitem _ Hskip Hslice _ Hsegs];
    rewrite Hsegs, Hitem.
  - cbn [map concat segmentBytes tokensOf flat_map]. rewrite !app_nil_r.
    split; [exact Hcons | split; [|reflexivity]].
    intros b [Hb|[]]; discriminate.
  - rewrite bytes_skipped, tokensOf_skipped.
    split; [exact Hslice | split; [|reflexivity]].
    intros b Hin. apply in_skipped in Hin.
    rewrite Forall_forall in Hskip. auto.
  - rewrite map_app, concat_app, bytes_skipped, tokensOf_app,
      tokensOf_skipped.
    cbn [map concat segmentBytes consumedBytes tokensOf flat_map app].
    rewrite !app_nil_r.
    split; [exact Hslice | split; [|reflexivity]].
    intros b Hin. apply in_app_or in Hin as [Hin|[Hin|[]]]; [|discriminate].
    apply in_skipped in Hin. rewrite Forall_forall in Hskip. auto.
Qed.

Lemma segmentsOfStep_spec (index : nat) :
  index < length buffer ->
  concat (map segmentBytes
            (segmentsOfStep
               (index, parseNextItem iconv_decode buffer index encoding)))
    = slice index (nextIndex (parseNextItem iconv_decode buffer index encoding))
  /\
  (forall b,
      In (Skipped b)
         (segmentsOfStep
            (index, parseNextItem iconv_decode buffer index encoding)) ->
      skippable b) /\
  tokensOf (segmentsOfStep
              (index, parseNextItem iconv_decode buffer index encoding))
    = match item (parseNextItem iconv_decode buffer index encoding) with
      | Some it => [it]
      | None => []
      end.
Proof. intros Hlt. apply StepShape_spec, step_shape, Hlt. Qed.

Lemma segmentsFrom_step (index : nat) :
  segmentsFrom index =
  if index <? length buffer then
    segmentsOfStep (index, parseNextItem iconv_decode buffer index encoding)
    ++ segmentsFrom (nextIndex (parseNextItem iconv_decode buffer index encoding))
  else [].
Proof.
  unfold segmentsFrom. rewrite parseBuffer_steps_step.
  destruct (index <? length buffer); reflexivity.
Qed.

(** From any cursor position the segments spell the rest of the buffer. *)
Lemma segmentsFrom_bytes :
  forall index,
    index <= length buffer ->
    concat (map segmentBytes (segmentsFrom index)) = skipn index buffer.
Proof.
  intros index. pattern index. apply cursor_ind. clear index.
  intros index IH Hle. rewrite segmentsFrom_step.
  destruct (Nat.ltb_spec index (length buffer)) as [Hlt|Hge].
  - pose proof (@parseNextItem_progress iconv_decode buffer index encoding Hlt)
      as Hb.
    destruct (segmentsOfStep_spec index Hlt) as (Hbytes & _ & _).
    rewrite map_app, concat_app, Hbytes, (IH Hlt) by lia.
    symmetry. apply skipn_slice. lia.
  - rewrite skipn_all2 by lia. reflexivity.
Qed.

Lemma segmentsFrom_skipped :
  forall index b, In (Skipped b) (segmentsFrom index) -> skippable b.
Proof.
  intros index. pattern index. apply cursor_ind. clear index.
  intros index IH b. rewrite segmentsFrom_step.
  destruct (Nat.ltb_spec index (length buffer)) as [Hlt|Hge]; [|intros []].
  destruct (segmentsOfStep_spec index Hlt) as (_ & Hskip & _).
  intros Hin. apply in_app_or in Hin as [Hin|Hin]; eauto.
Qed.

(** The items the loop of [parseBuffer] pushes are the tokens of the
    segments, in order. *)
Lemma parseBuffer_loop_tokens :
  forall index result,
    parseBuffer_loop iconv_decode buffer encoding index result
    = result ++ tokensOf (segmentsFrom index).
Proof.
  intros index. pattern index. apply cursor_ind. clear index.
  intros index IH result.
  rewrite parseBuffer_loop_step, segmentsFrom_step.
  destruct (Nat.ltb_spec index (length buffer)) as [Hlt|Hge].
  - destruct (segmentsOfStep_spec index Hlt) as (_ & _ & Htok).
    rewrite (IH Hlt), tokensOf_app, Htok.
    destruct (item (parseNextItem iconv_decode buffer index encoding));
      simpl; rewrite <- ?app_assoc; reflexivity.
  - simpl. rewrite app_nil_r. reflexivity.
Qed.

Lemma segmentsFrom_textRuns :
  forall index,
    index <= length buffer ->
    textRunsYieldToCommands buffer index (segmentsFrom index).
Proof.
  intros index. pattern index. apply cursor_ind. clear index.
  intros index IH Hle. rewrite segmentsFrom_step.
  destruct (Nat.ltb_spec index (length buffer)) as [Hlt|Hge]; [|exact I].
  pose proof (@parseNextItem_progress iconv_decode buffer index encoding Hlt)
    as Hb.
  specialize (IH Hlt ltac:(lia)).
  pose proof (step_shape index Hlt) as Hshape.
  remember (parseNextItem iconv_decode buffer index encoding) as pr eqn:Hpr.
  clear Hpr.
  destruct Hshape
    as [c it _ _ Hitem Hname Hcons Hsegs
       |skipped _ Hitem Hskip Hslice Hsegs
       |skipped d t run e ds _ Hitem Hne Hskip Hslice Hclear Hsegs];
    rewrite Hsegs.
  - destruct it; [|discriminate].
    cbn [app textRunsYieldToCommands segmentBytes]. split; [exact I|].
    rewrite Hcons, length_slice by lia.
    replace (index + (nextIndex pr - index)) with (nextIndex pr) by lia.
    exact IH.
  - apply textRunsYieldToCommands_skipped.
    rewrite Hslice, length_slice by lia.
    replace (index + (nextIndex pr - index)) with (nextIndex pr) by lia.
    exact IH.
  - rewrite <- app_assoc.
    apply textRunsYieldToCommands_skipped.
    assert (Hend : index + length skipped + length run = nextIndex pr).
    { rewrite <- Nat.add_assoc, <- length_app, Hslice, length_slice by lia.
      lia. }
    cbn [app textRunsYieldToCommands segmentBytes consumedBytes].
    rewrite Hend. split; [split|exact IH].
    + intros p Hp. apply Hclear. lia.
    + intros c Hfind.
      assert (Hnext : nextIndex pr < length buffer).
      { pose proof (findCommand_fits buffer (nextIndex pr) c Hfind). lia. }
      rewrite segmentsFrom_step.
      apply Nat.ltb_lt in Hnext. rewrite Hnext. apply Nat.ltb_lt in Hnext.
      pose proof (step_shape (nextIndex pr) Hnext) as Hshape'.
      remember (parseNextItem iconv_decode buffer (nextIndex pr) encoding)
        as pr' eqn:Hpr'.
      clear Hpr'.
      destruct Hshape'
        as [c' it' Hfind' Hpc Hitem' Hname' _ Hsegs'
           |? Hfind' _ _ _ _
           |? ? ? ? ? ? Hfind' _ _ _ _ _ _]; try congruence.
      rewrite Hfind in Hfind'. injection Hfind' as <-.
      rewrite Hsegs'. rewrite Hpc in Hitem'.
      exists it'. eexists. repeat split; eauto.
Qed.

Lemma segmentsFrom_text_run :
  forall index d text run e ds,
    In (Token (TextItem d text run e ds)) (segmentsFrom index) ->
    run <> [] /\
    (Forall (fun b => isPrintableChar b = true) run \/
     (exists b, run = [b] /\ isNewLine b = true /\ text = [10%N])).
Proof.
  intros index. pattern index. apply cursor_ind. clear index.
  intros index IH d text run e ds. rewrite segmentsFrom_step.
  destruct (Nat.ltb_spec index (length buffer)) as [Hlt|Hge]; [|intros []].
  intros Hin. apply in_app_or in Hin as [Hin|Hin]; [|eauto].
  pose proof (parseTextData_loop_run index [] (Forall_nil _)) as Hrun.
  pose proof (step_shape index Hlt) as Hshape.
  unfold parseNextItem in *.
  destruct Hshape
    as [c it _ _ _ Hname _ Hsegs
       |skipped _ _ _ _ Hsegs
       |skipped d' t' run' e' ds' Hfind Hitem Hne _ _ _ Hsegs];
    rewrite Hsegs in Hin.
  - destruct Hin as [Hin|[]]. injection Hin as ->. discriminate.
  - apply in_map_iff in Hin as (? & ? & _). discriminate.
  - apply in_app_or in Hin as [Hin|[Hin|[]]].
    { apply in_map_iff in Hin as (? & ? & _). discriminate. }
    injection Hin as -> -> -> -> ->.
    rewrite Hfind in Hitem. unfold parseTextData in Hitem.
    rewrite Hitem in Hrun. auto.
Qed.

(** The steps from a cursor position that the run reaches are the last
    steps of the run. *)
Lemma parseBuffer_steps_suffix (index : nat) :
  forall start,
    In index (map fst (parseBuffer_steps start)) ->
    exists earlier,
      parseBuffer_steps start = earlier ++ parseBuffer_steps index.
Proof.
  intros start. pattern start. apply cursor_ind. clear start.
  intros start IH. rewrite (parseBuffer_steps_step start).
  destruct (Nat.ltb_spec start (length buffer)) as [Hlt|Hge]; [|intros []].
  cbn [map fst In]. intros [->|Hin].
  - exists []. rewrite (parseBuffer_steps_step index).
    apply Nat.ltb_lt in Hlt. rewrite Hlt. reflexivity.
  - destruct (IH Hlt Hin) as [earlier Hearlier].
    eexists (_ :: earlier). rewrite Hearlier. reflexivity.
Qed.

Lemma parseBuffer_tokens :
  parseBuffer iconv_decode buffer encoding = tokensOf segments.
Proof.
  unfold parseBuffer, segments.
  destruct (Nat.eqb_spec (length buffer) 0) as [H0|Hn].
  - rewrite segmentsFrom_step.
    destruct (Nat.ltb_spec 0 (length buffer)); [lia | reflexivity].
  - apply (parseBuffer_loop_tokens 0 []).
Qed.

(** A step that starts where no command matches passes no position where
    one does. *)
Lemma step_clear (index : nat) :
  index < length buffer ->
  findCommand buffer index = None ->
  forall p,
    index <= p < nextIndex (parseNextItem iconv_decode buffer index encoding) ->
    findCommand buffer p = None.
Proof.
  intros Hlt Hfind. unfold parseNextItem. rewrite Hfind. unfold parseTextData.
  apply (proj1 (parseTextData_loop_spec index [] ltac:(lia))).
Qed.

Lemma segmentsFrom_priority :
  forall index,
    index <= length buffer ->
    commandsHavePriority buffer index (segmentsFrom index).
Proof.
  intros index. pattern index. apply cursor_ind. clear index.
  intros index IH Hle. rewrite segmentsFrom_step.
  destruct (Nat.ltb_spec index (length buffer)) as [Hlt|Hge]; [|exact I].
  pose proof (@parseNextItem_progress iconv_decode buffer index encoding Hlt)
    as Hb.
  specialize (IH Hlt ltac:(lia)).
  pose proof (step_shape index Hlt) as Hshape.
  pose proof (step_clear index Hlt) as Hclr.
  remember (parseNextItem iconv_decode buffer index encoding) as pr eqn:Hpr.
  clear Hpr.
  destruct Hshape
    as [c it Hfind Hpc Hitem Hname Hcons Hsegs
       |skipped Hfind Hitem Hskip Hslice Hsegs
       |skipped d t run e ds Hfind Hitem Hne Hskip Hslice Hclear Hsegs];
    rewrite Hsegs.
  - destruct it as [cmd v w h ds|]; [|discriminate].
    cbn [app commandsHavePriority segmentBytes]. split.
    { intros c' Hc'. rewrite Hfind in Hc'. injection Hc' as <-.
      exists (CommandItem cmd v w h ds). rewrite <- Hpc. auto. }
    split; [exact I|].
    rewrite Hcons, length_slice by lia.
    replace (index + (nextIndex pr - index)) with (nextIndex pr) by lia.
    exact IH.
  - apply commandsHavePriority_skipped.
    + intros p Hp. apply (Hclr Hfind).
      rewrite Hslice, length_slice in Hp by lia. lia.
    + rewrite Hslice, length_slice by lia.
      replace (index + (nextIndex pr - index)) with (nextIndex pr) by lia.
      exact IH.
  - rewrite <- app_assoc.
    assert (Hend : index + length skipped + length run = nextIndex pr).
    { rewrite <- Nat.add_assoc, <- length_app, Hslice, length_slice by lia.
      lia. }
    assert (Hrun : 0 < length run) by (destruct run; [congruence | simpl; lia]).
    apply commandsHavePriority_skipped.
    + intros p Hp. apply Hclear. lia.
    + cbn [app commandsHavePriority segmentBytes consumedBytes].
      rewrite Hend.
      assert (H0 : findCommand buffer (index + length skipped) = None)
        by (apply Hclear; lia).
      split; [intros c Hc; congruence|].
      split; [intros p Hp; apply Hclear; lia | exact IH].
Qed.

(** Where a command matches, the cursor arrives, unless the position is that
    of the parameter byte of a command that matches two bytes before it. *)
Lemma matching_position_reached :
  forall start p c,
    start <= p ->
    findCommand buffer p = Some c ->
    In p (map fst (parseBuffer_steps start)) \/
    exists q c' it b,
      q + 2 = p /\
      In q (map fst (parseBuffer_steps start)) /\
      findCommand buffer q = Some c' /\
      parseNextItem iconv_decode buffer q encoding
        = {| item := Some it; nextIndex := p + 1 |} /\
      itemCommand it = Some (name c') /\
      itemValue it = Some b /\
      nth_error buffer p = Some b.
Proof.
  intros start. pattern start. apply cursor_ind. clear start.
  intros start IH p c Hle Hfind.
  pose proof (findCommand_fits buffer p c Hfind) as Hfit.
  assert (Hlt : start < length buffer) by lia.
  rewrite (parseBuffer_steps_step start).
  destruct (Nat.ltb_spec start (length buffer)) as [_|Hge]; [|lia].
  cbn [map fst In].
  destruct (Nat.eq_dec start p) as [Heq|Hne]; [left; left; exact Heq|].
  assert (Hnext :
    nextIndex (parseNextItem iconv_decode buffer start encoding) <= p ->
    (start = p \/
     In p (map fst (parseBuffer_steps
                      (nextIndex (parseNextItem iconv_decode buffer start
                                    encoding))))) \/
    exists q c' it b,
      q + 2 = p /\
      (start = q \/
       In q (map fst (parseBuffer_steps
                        (nextIndex (parseNextItem iconv_decode buffer start
                                      encoding))))) /\
      findCommand buffer q = Some c' /\
      parseNextItem iconv_decode buffer q encoding
        = {| item := Some it; nextIndex := p + 1 |} /\
      itemCommand it = Some (name c') /\
      itemValue it = Some b /\
      nth_error buffer p = Some b).
  { intros Hnx.
    destruct (IH Hlt p c Hnx Hfind) as [Hin|(q & c' & it & b & H1 & Hin & H2)].
    - left. right. exact Hin.
    - right. exists q, c', it, b. split; [exact H1|].
      split; [right; exact Hin | exact H2]. }
  destruct (findCommand buffer start) as [c0|] eqn:Hfind0.
  - destruct (parseCommand_step buffer start c0 Hfind0)
      as (it & Hitem & Hname & Hval).
    assert (Hpr : parseNextItem iconv_decode buffer start encoding
                  = parseCommand buffer start c0)
      by (unfold parseNextItem; rewrite Hfind0; reflexivity).
    destruct (findCommand_signature_bytes buffer start c0 Hfind0)
      as (_ & b2 & Hb2 & Hn1 & Hn2).
    assert (Hp1 : p <> start + 1).
    { intros ->.
      destruct (findCommand_signature_bytes buffer (start + 1) c Hfind)
        as ([Hesc|Hgs] & _); congruence. }
    destruct Hval as [[Hnone Hnx]|(b & Hsome & Hbyte & Hnx)].
    + apply Hnext. rewrite Hpr, Hnx. lia.
    + destruct (Nat.eq_dec p (start + 2)) as [->|Hp2].
      * right. exists start, c0, it, b. split; [reflexivity|].
        split; [left; reflexivity|]. split; [exact Hfind0|].
        split; [|auto].
        rewrite Hpr. destruct (parseCommand buffer start c0) as [i n].
        cbn [item nextIndex] in *. subst. f_equal. lia.
      * apply Hnext. rewrite Hpr, Hnx. lia.
  - apply Hnext.
    destruct (Nat.le_gt_cases
                (nextIndex (parseNextItem iconv_decode buffer start encoding))
                p) as [Hok|Hin]; [exact Hok|].
    rewrite (step_clear start Hlt Hfind0 p ltac:(lia)) in Hfind.
    discriminate.
Qed.

End Trace.

(** C1. [parseBuffer] is a total function: its loop is defined by recursion
    on the number of bytes after the cursor, and every step at a cursor
    inside the buffer moves the cursor forward and not past the end, so
    tokenization ends on every buffer.  The run splits the buffer into
    segments, each an item or one skipped byte, such that the items in order
    are the result of [parseBuffer]; the bytes of the segments (for a command
    its signature and its parameter byte if it has one, for a text item its
    byte run, for a skipped byte itself), taken in order, are exactly the
    buffer, so every byte lies in exactly one segment; every skipped byte is
    neither printable nor a line terminator; the byte run of a text item is
    not empty and is made of printable bytes, or is the one byte of a
    newline item; and the lengths of the segments add up to the length of
    the buffer. *)
Theorem parseBuffer_accounts_for_every_byte :
  forall (iconv_decode : list N -> string -> option jsstring)
         (buffer : list N) (encoding : string),
    (forall index,
        index < length buffer ->
        index < nextIndex (parseNextItem iconv_decode buffer index encoding)
              <= length buffer) /\
    parseBuffer iconv_decode buffer encoding
      = tokensOf (segments iconv_decode buffer encoding) /\
    concat (map segmentBytes (segments iconv_decode buffer encoding)) = buffer /\
    (forall b, In (Skipped b) (segments iconv_decode buffer encoding) ->
               isPrintableChar b = false /\ isNewLine b = false) /\
    (forall d text run e ds,
        In (Token (TextItem d text run e ds))
           (segments iconv_decode buffer encoding) ->
        run <> [] /\
        (Forall (fun b => isPrintableChar b = true) run \/
         (exists b, run = [b] /\ isNewLine b = true /\ text = [10%N]))) /\
    list_sum (map (fun seg => length (segmentBytes seg))
                  (segments iconv_decode buffer encoding))
      = length buffer.
Proof.
  intros iconv_decode buffer encoding.
  assert (Hbytes : concat (map segmentBytes
                             (segments iconv_decode buffer encoding)) = buffer).
  { unfold segments. rewrite segmentsFrom_bytes by lia. reflexivity. }
  split; [intros index Hlt; apply parseNextItem_progress, Hlt|].
  split; [apply parseBuffer_tokens|].
  split; [exact Hbytes|].
  split; [apply segmentsFrom_skipped|].
  split; [apply segmentsFrom_text_run|].
  rewrite <- Hbytes at 2. rewrite length_concat, map_map. reflexivity.
Qed.

(** C5. Command matching has priority over a text run.  In the segments of
    a run of the tokenizer, no position inside the byte run of a text item is
    one where [findCommand] matches; whenever [findCommand] matches at the
    position where a text run ends, the very next item is the command item of
    that match; no skipped byte is at a position where [findCommand] matches;
    and every segment that starts at a position where [findCommand] matches,
    be it after a text run, after skipped bytes or after another item, is the
    command item of that match.  So a signature the scan for text meets is
    never passed over and never taken into a text item: it is emitted as a
    command item. *)
Theorem text_runs_yield_to_commands :
  forall (iconv_decode : list N -> string -> option jsstring)
         (buffer : list N) (encoding : string),
    parseBuffer iconv_decode buffer encoding
      = tokensOf (segments iconv_decode buffer encoding) /\
    concat (map segmentBytes (segments iconv_decode buffer encoding)) = buffer /\
    textRunsYieldToCommands buffer 0 (segments iconv_decode buffer encoding) /\
    commandsHavePriority buffer 0 (segments iconv_decode buffer encoding).
Proof.
  intros iconv_decode buffer encoding.
  split; [apply parseBuffer_tokens|].
  split; [unfold segments; rewrite segmentsFrom_bytes by lia; reflexivity|].
  split; [apply segmentsFrom_textRuns; lia|].
  apply segmentsFrom_priority. lia.
Qed.

(** A signature met after a skipped byte: the byte 7F is passed over and the
    cut command after it is emitted, not scanned as text. *)
Example command_after_skipped_byte :
  segments sampleDecode [0x7f; 0x1d; 0x56; 0x00]%N "utf8"
  = [Skipped 0x7f%N;
     Token (CommandItem "CUT_PAPER" (Some 0%N) None None (js "切纸: 全切"))].
Proof. vm_compute. reflexivity. Qed.

(** C10 as stated, at one buffer: wherever a command matches with the buffer
    ending right after its two signature bytes, the result of [parseBuffer]
    ends with the item of that command, without a value. *)
Definition emitsCommandAtEnd
  (iconv_decode : list N -> string -> option jsstring)
  (buffer : list N) (encoding : string) : Prop :=
  forall index c,
    findCommand buffer index = Some c ->
    index + length (bytes c) = length buffer ->
    exists earlier it,
      parseBuffer iconv_decode buffer encoding = earlier ++ [it] /\
      itemCommand it = Some (name c) /\
      itemValue it = None.

(** Against C10 as stated.  The buffer 1B 61 1B 61 ends at the signature of
    ALIGN, a command that takes a parameter, yet its result does not end with
    an ALIGN item without a value: the first ESC a takes the second ESC as
    its parameter byte (value 27), the cursor goes from 0 to 3, and the last
    byte is the text [a]. *)
Lemma signature_taken_as_parameter :
  findCommand [0x1b; 0x61; 0x1b; 0x61]%N 2 = Some ALIGN /\
  2 + length (bytes ALIGN) = length [0x1b; 0x61; 0x1b; 0x61]%N /\
  map itemValue (parseBuffer sampleDecode [0x1b; 0x61; 0x01]%N "utf8")
  = [Some 1%N] /\
  parseBuffer sampleDecode [0x1b; 0x61; 0x1b; 0x61]%N "utf8"
  = [CommandItem "ALIGN" (Some 27%N) None None (js "设置对齐方式: 未知");
     TextItem (js "a") (js "a") [0x61%N] "utf8"
       (js "文本: " ++ [34%N] ++ js "a" ++ [34%N])] /\
  map fst (parseBuffer_steps sampleDecode [0x1b; 0x61; 0x1b; 0x61]%N "utf8" 0)
  = [0; 3] /\
  ~ emitsCommandAtEnd sampleDecode [0x1b; 0x61; 0x1b; 0x61]%N "utf8".
Proof.
  split; [reflexivity|]. split; [reflexivity|].
  split; [vm_compute; reflexivity|].
  split; [vm_compute; reflexivity|]. split; [vm_compute; reflexivity|].
  intros Hclaim.
  destruct (Hclaim 2 ALIGN eq_refl eq_refl)
    as (earlier & it & Hres & Hname & _).
  assert (Hlast :
    last (parseBuffer sampleDecode [0x1b; 0x61; 0x1b; 0x61]%N "utf8")
         (CommandItem "" None None None [])
    = TextItem (js "a") (js "a") [0x61%N] "utf8"
        (js "文本: " ++ [34%N] ++ js "a" ++ [34%N]))
    by (vm_compute; reflexivity).
  rewrite Hres, last_last in Hlast. subst it. discriminate Hname.
Qed.

(** C10, as amended.  A command whose signature ends the buffer.  When the
    cursor of the tokenizer is at a position where a command matches and the
    buffer ends right after the two signature bytes, the step emits the
    command item of that command with no parameter value, moves the cursor by
    the two signature bytes only, which is the end of the buffer, and the
    loop of [parseBuffer] ends there with that item as the last one; so when
    the run on the buffer reaches that position, this item is the last item
    of the result of [parseBuffer].  And the run reaches that position unless
    a command matches two bytes before it and takes the first signature byte
    as its parameter byte: then that command item carries the byte as its
    value and the cursor goes on from the last byte of the buffer.  (The
    cursor positions of a run are those of [parseBuffer_steps].) *)
Theorem command_at_end_of_buffer :
  forall (iconv_decode : list N -> string -> option jsstring)
         (buffer : list N) (encoding : string) (index : nat)
         (c : CommandDef),
    findCommand buffer index = Some c ->
    index + length (bytes c) = length buffer ->
    exists it,
      parseNextItem iconv_decode buffer index encoding
        = {| item := Some it; nextIndex := index + 2 |} /\
      itemCommand it = Some (name c) /\
      itemValue it = None /\
      index + 2 = length buffer /\
      (forall result,
          parseBuffer_loop iconv_decode buffer encoding index result
          = result ++ [it]) /\
      (In index (map fst (parseBuffer_steps iconv_decode buffer encoding 0)) ->
       exists earlier,
         parseBuffer iconv_decode buffer encoding = earlier ++ [it]) /\
      (In index (map fst (parseBuffer_steps iconv_decode buffer encoding 0)) \/
       exists before c' it' b,
         before + 2 = index /\
         In before
            (map fst (parseBuffer_steps iconv_decode buffer encoding 0)) /\
         findCommand buffer before = Some c' /\
         parseNextItem iconv_decode buffer before encoding
           = {| item := Some it'; nextIndex := index + 1 |} /\
         itemCommand it' = Some (name c') /\
         itemValue it' = Some b /\
         nth_error buffer index = Some b).
Proof.
  intros iconv_decode buffer encoding index c Hfind Hend.
  destruct (@findCommandIn_sound COMMANDS buffer index c Hfind) as [Hin _].
  pose proof COMMANDS_shape as Hall. rewrite Forall_forall in Hall.
  destruct (Hall c Hin) as (H2 & _ & p & Hp & Hitem).
  destruct (Hitem buffer index) as (v & w & h & d & Hpi & Hv).
  assert (Hnone : v = None).
  { destruct Hv as [->| ->]; [|reflexivity]. apply nth_error_None. lia. }
  subst v.
  assert (Hstep : parseNextItem iconv_decode buffer index encoding
                  = {| item := Some (CommandItem (name c) None w h d);
                       nextIndex := index + 2 |}).
  { unfold parseNextItem. rewrite Hfind. unfold parseCommand.
    rewrite Hp, Hpi, H2. reflexivity. }
  assert (Hloop : forall result,
             parseBuffer_loop iconv_decode buffer encoding index result
             = result ++ [CommandItem (name c) None w h d]).
  { intros result. rewrite parseBuffer_loop_step.
    destruct (Nat.ltb_spec index (length buffer)) as [_|Hge]; [|lia].
    rewrite Hstep. cbn [item nextIndex].
    rewrite parseBuffer_loop_step.
    destruct (Nat.ltb_spec (index + 2) (length buffer)) as [Hlt|_]; [lia|].
    reflexivity. }
  exists (CommandItem (name c) None w h d).
  split; [exact Hstep|]. split; [reflexivity|]. split; [reflexivity|].
  split; [lia|]. split; [exact Hloop|]. split.
  - intros Hreach.
    destruct (parseBuffer_steps_suffix iconv_decode buffer encoding index 0 Hreach)
      as [earlier Hearlier].
    exists (tokensOf (flat_map (segmentsOfStep buffer) earlier)).
    rewrite parseBuffer_tokens. unfold segments, segmentsFrom.
    rewrite Hearlier, flat_map_app, tokensOf_app. f_equal.
    specialize (Hloop []). rewrite parseBuffer_loop_tokens in Hloop.
    exact Hloop.
  - apply (matching_position_reached iconv_decode buffer encoding 0 index c);
      [lia | exact Hfind].
Qed.

Lemma command_at_end_of_buffer_witness :
  exists it,
    parseNextItem sampleDecode [0x48; 0x69; 0x1b; 0x61]%N 2 "utf8"
      = {| item := Some it; nextIndex := 2 + 2 |} /\
    itemCommand it = Some (name ALIGN) /\
    itemValue it = None /\
    2 + 2 = length [0x48; 0x69; 0x1b; 0x61]%N /\
    (forall result,
        parseBuffer_loop sampleDecode [0x48; 0x69; 0x1b; 0x61]%N "utf8" 2 result
        = result ++ [it]) /\
    (In 2 (map fst (parseBuffer_steps sampleDecode
                      [0x48; 0x69; 0x1b; 0x61]%N "utf8" 0)) ->
     exists earlier,
       parseBuffer sampleDecode [0x48; 0x69; 0x1b; 0x61]%N "utf8"
       = earlier ++ [it]) /\
    (In 2 (map fst (parseBuffer_steps sampleDecode
                      [0x48; 0x69; 0x1b; 0x61]%N "utf8" 0)) \/
     exists before c' it' b,
       before + 2 = 2 /\
       In before
          (map fst (parseBuffer_steps sampleDecode
                      [0x48; 0x69; 0x1b; 0x61]%N "utf8" 0)) /\
       findCommand [0x48; 0x69; 0x1b; 0x61]%N before = Some c' /\
       parseNextItem sampleDecode [0x48; 0x69; 0x1b; 0x61]%N before "utf8"
         = {| item := Some it'; nextIndex := 2 + 1 |} /\
       itemCommand it' = Some (name c') /\
       itemValue it' = Some b /\
       nth_error [0x48; 0x69; 0x1b; 0x61]%N 2 = Some b).
Proof.
  apply (command_at_end_of_buffer sampleDecode [0x48; 0x69; 0x1b; 0x61]%N
           "utf8" 2 ALIGN); reflexivity.
Defined.

Example command_at_end_of_buffer_example :
  parseBuffer sampleDecode [0x48; 0x69; 0x1b; 0x61]%N "utf8"
  = [TextItem (js "Hi") (js "Hi") [0x48; 0x69]%N "utf8"
       (js "文本: " ++ [34%N] ++ js "Hi" ++ [34%N]);
     CommandItem "ALIGN" None None None (js "设置对齐方式: 未知")].
Proof. vm_compute. reflexivity. Qed.

Example segments_example :
  segments sampleDecode [0x00; 0x48; 0x69; 0x1b; 0x61; 0x01; 0x0a]%N "utf8"
  = [Skipped 0%N;
     Token (TextItem (js "Hi") (js "Hi") [0x48; 0x69]%N "utf8"
              (js "文本: " ++ [34%N] ++ js "Hi" ++ [34%N]));
     Token (CommandItem "ALIGN" (Some 1%N) None None (js "设置对齐方式: 居中"));
     Token (TextItem [10%N] [10%N] [0x0a%N] "utf8" (js "换行符"))].
Proof. vm_compute. reflexivity. Qed.

(** ** The hexadecimal front end *)

Definition isHexDigit (c : N) : bool := isSome (hexValue c).

(** The string after the white space is removed. *)
Definition cleaned (hexString : jsstring) : jsstring :=
  filter (fun c => negb (isWhiteSpace c)) hexString.

(** A malformed hexadecimal string: odd length, or a character that is not a
    hexadecimal digit. *)
Definition malformedHex (cleanHex : jsstring) : Prop :=
  length cleanHex mod 2 <> 0 \/
  exists c, In c cleanHex /\ isHexDigit c = false.

(** [parseHexString] rejects exactly the malformed strings, at one input. *)
Definition rejectsExactlyMalformed
  (iconv_decode : list N -> string -> option jsstring)
  (hexString : jsstring) (encoding : string) : Prop :=
  (malformedHex (cleaned hexString) ->
   exists message,
     parseHexString iconv_decode hexString encoding = Throws message) /\
  (~ malformedHex (cleaned hexString) ->
   exists items,
     parseHexString iconv_decode hexString encoding = Returns items).

(** Against C4 as stated.  The empty string is not malformed, yet it is
    rejected; the string [zz] is malformed, yet it is accepted (and parsed as
    the empty buffer). *)
Lemma parseHexString_not_exactly_malformed :
  ~ rejectsExactlyMalformed sampleDecode [] "utf8" /\
  ~ rejectsExactlyMalformed sampleDecode (js "zz") "utf8".
Proof.
  split.
  - intros [_ Haccept].
    destruct Haccept as [items Hitems]; [|discriminate].
    intros [Hodd|[c [[] _]]]. apply Hodd. reflexivity.
  - intros [Hreject _].
    destruct Hreject as [message Hmessage]; [|discriminate].
    right. exists 122%N. split; [left|]; reflexivity.
Qed.

Lemma bufferFromHex_length :
  forall (n : nat) (cleanHex : jsstring),
    length cleanHex = 2 * n ->
    Forall (fun c => isHexDigit c = true) cleanHex ->
    length (bufferFromHex cleanHex) = n.
Proof.
  induction n as [|n IH]; intros cleanHex Hlen Hall.
  - destruct cleanHex; [reflexivity | discriminate].
  - destruct cleanHex as [|hi [|lo rest]]; simpl in Hlen; try lia.
    inversion Hall as [|? ? Hhi Hrest]; subst.
    inversion Hrest as [|? ? Hlo Hrest']; subst.
    unfold isHexDigit in Hhi, Hlo. simpl.
    destruct (hexValue hi); [|discriminate].
    destruct (hexValue lo); [|discriminate].
    simpl. f_equal. apply IH; [lia | exact Hrest'].
Qed.

(** C4, as amended.  After the white space is removed: a string that is
    empty or of odd length is rejected with an error, before any
    tokenization; a non-empty string of even length made of hexadecimal
    digits only is accepted, every pair of digits gives one byte, and the
    result is the tokenization of these bytes. *)
Theorem parseHexString_validation :
  forall (iconv_decode : list N -> string -> option jsstring)
         (hexString : jsstring) (encoding : string),
    (cleaned hexString = [] \/ length (cleaned hexString) mod 2 <> 0 ->
     exists message,
       parseHexString iconv_decode hexString encoding = Throws message) /\
    (cleaned hexString <> [] ->
     length (cleaned hexString) mod 2 = 0 ->
     Forall (fun c => isHexDigit c = true) (cleaned hexString) ->
     parseHexString iconv_decode hexString encoding
       = Returns (parseBuffer iconv_decode
                    (bufferFromHex (cleaned hexString)) encoding) /\
     length (bufferFromHex (cleaned hexString))
       = length (cleaned hexString) / 2).
Proof.
  intros iconv_decode hexString encoding.
  unfold parseHexString. fold (cleaned hexString).
  split.
  - intros [Hempty|Hodd].
    + rewrite Hempty. simpl. eexists. reflexivity.
    + destruct (Nat.eqb_spec (length (cleaned hexString)) 0) as [H0|_];
        [eexists; reflexivity|].
      destruct (Nat.eqb_spec (length (cleaned hexString) mod 2) 0) as [H2|_];
        [contradiction|].
      simpl. eexists. reflexivity.
  - intros Hne Heven Hall.
    destruct (Nat.eqb_spec (length (cleaned hexString)) 0) as [H0|_].
    { destruct (cleaned hexString); [contradiction | discriminate]. }
    rewrite Heven. simpl. split; [reflexivity|].
    apply bufferFromHex_length; [|exact Hall].
    exact (proj2 (Nat.Div0.div_exact _ _) Heven).
Qed.

Lemma parseHexString_validation_witness :
  (exists message,
      parseHexString sampleDecode (js "1b 4") "utf8" = Throws message) /\
  parseHexString sampleDecode (js "1B 40") "utf8"
    = Returns (parseBuffer sampleDecode
                 (bufferFromHex (cleaned (js "1B 40"))) "utf8") /\
  length (bufferFromHex (cleaned (js "1B 40")))
    = length (cleaned (js "1B 40")) / 2.
Proof.
  split.
  - apply (proj1 (parseHexString_validation sampleDecode (js "1b 4") "utf8")).
    right. vm_compute. discriminate.
  - apply (proj2 (parseHexString_validation sampleDecode (js "1B 40") "utf8")).
    + vm_compute. discriminate.
    + reflexivity.
    + vm_compute. repeat constructor.
Defined.

(** ** The formatter *)

Lemma repeatString_single (c : N) (n : nat) :
  repeatString [c] n = repeat c n.
Proof.
  unfold repeatString. induction n as [|n IH]; simpl; congruence.
Qed.

Lemma repeatDash_nonneg (count : Z) :
  (0 <= count)%Z ->
  repeatDash count = Returns (repeat 45%N (Z.to_nat count)).
Proof.
  intros Hle. unfold repeatDash.
  destruct (Z.ltb_spec count 0) as [Hlt|_]; [lia|].
  change (js "-") with [45%N]. rewrite repeatString_single. reflexivity.
Qed.

(** A line is centred in [width] columns when it is what centre alignment
    makes of some text that does not itself begin with a space: the text
    after [floor((width - display width) / 2)] spaces. *)
Definition centeredIn (width : Z) (line : jsstring) : Prop :=
  exists text,
    startsWith text (js " ") = false /\
    line = spaces (Z.max 0 ((width - getTextWidth text) / 2)) ++ text.

(** The item of a full cut, as [CUT_PAPER.parse] builds it. *)
Definition fullCutItem : Item :=
  CommandItem "CUT_PAPER" (Some 0%N) None None (js "切纸: 全切").

(** Against C6 as stated.  At the default width of 48 columns the marker
    line that the cut command appends is the fixed string with one space
    before the marker: it is not centred. *)
Lemma cut_marker_is_not_centered :
  exists f',
    processItem (newTextFormatter {| optLineWidth := None |}) fullCutItem
      = Returns f' /\
    lineWidth f' = 48%Z /\
    nth_error (lines f') 7 = Some (js " 【纸张切割处】 ") /\
    ~ centeredIn (lineWidth f') (js " 【纸张切割处】 ").
Proof.
  eexists. split; [vm_compute; reflexivity|].
  split; [reflexivity|]. split; [reflexivity|].
  cbn [lineWidth]. intros (text & Hstart & Hline).
  unfold spaces in Hline. change (js " ") with [32%N] in *.
  rewrite repeatString_single in Hline.
  destruct (Z.to_nat (Z.max 0 ((48 - getTextWidth text) / 2)))
    as [|[|n]] eqn:Hpad; simpl in Hline.
  - rewrite <- Hline in Hstart. vm_compute in Hstart. discriminate.
  - vm_compute in Hline. injection Hline as <-.
    vm_compute in Hpad. discriminate.
  - vm_compute in Hline. discriminate.
Qed.

(** C6, as amended.  With a non-negative line width, a CUT_PAPER command
    flushes the line buffer if it is not empty, then appends six empty lines,
    a rule of [lineWidth] dashes, the fixed marker line (the marker between
    two single spaces, whatever the line width) and a second rule of
    [lineWidth] dashes.  The hexadecimal input 1D5600 parses to the one
    command item CUT_PAPER with value 0, and its formatted text at the
    default width is six empty lines, a rule of 48 dashes, the marker line
    and a rule of 48 dashes. *)
Theorem cut_paper_layout :
  forall (f : TextFormatter) (value : option N),
    (0 <= lineWidth f)%Z ->
    processCommandItem f "CUT_PAPER" value
      = Returns
          (withCurrentLine
             (withLines f
                (lines f
                 ++ (if nonEmpty (currentLine f)
                     then [formatLine f (currentLine f)] else [])
                 ++ repeat [] 6
                 ++ [repeat 45%N (Z.to_nat (lineWidth f));
                     js " 【纸张切割处】 ";
                     repeat 45%N (Z.to_nat (lineWidth f))]))
             []) /\
    (forall (iconv_decode : list N -> string -> option jsstring)
            (encoding : string),
        parseHexString iconv_decode (js "1D5600") encoding
          = Returns [fullCutItem]) /\
    formatAsText [fullCutItem] {| optLineWidth := None |}
      = Returns (join [10%N]
                   (repeat [] 6
                    ++ [repeat 45%N 48; js " 【纸张切割处】 ";
                        repeat 45%N 48])).
Proof.
  intros f value Hwidth. split; [|split].
  - change (processCommandItem f "CUT_PAPER" value)
      with (processCutPaperCommand f).
    unfold processCutPaperCommand, flushCurrentLine, addFormattedLine.
    destruct f as [ls cur al bo un w]. cbn [lineWidth] in Hwidth.
    cbn [currentLine]. destruct cur as [|ch cur];
      cbn [nonEmpty lineWidth lines currentLine withLines withCurrentLine
           pushLine];
      rewrite (repeatDash_nonneg w Hwidth); cbn [bind];
      unfold addFormattedLine, pushLine, withLines, withCurrentLine;
      cbn [lines currentLine currentAlign isBold hasUnderline lineWidth];
      do 2 f_equal; repeat rewrite <- app_assoc; reflexivity.
  - intros iconv_decode encoding. vm_compute. reflexivity.
  - vm_compute. reflexivity.
Qed.

Lemma cut_paper_layout_witness :
  processCommandItem
    {| lines := [js "Total"]; currentLine := js "Bye"; currentAlign := 0;
       isBold := false; hasUnderline := false; lineWidth := 4 |}
    "CUT_PAPER" (Some 1%N)
  = Returns
      {| lines := [js "Total"; js "Bye"; []; []; []; []; []; [];
                   js "----"; js " 【纸张切割处】 "; js "----"];
         currentLine := []; currentAlign := 0;
         isBold := false; hasUnderline := false; lineWidth := 4 |}.
Proof.
  apply (proj1 (cut_paper_layout
                  {| lines := [js "Total"]; currentLine := js "Bye";
                     currentAlign := 0; isBold := false;
                     hasUnderline := false; lineWidth := 4 |}
                  (Some 1%N) ltac:(cbn; lia))).
Defined.

(** With a negative line width the cut command throws the [RangeError] of
    [String.prototype.repeat]; hence the hypothesis above. *)
Lemma cut_paper_negative_width_throws (f : TextFormatter) (value : option N) :
  (lineWidth f < 0)%Z ->
  exists message, processCommandItem f "CUT_PAPER" value = Throws message.
Proof.
  intros Hneg.
  change (processCommandItem f "CUT_PAPER" value)
    with (processCutPaperCommand f).
  unfold processCutPaperCommand, flushCurrentLine, addFormattedLine.
  destruct f as [ls cur al bo un w]. cbn [lineWidth] in Hneg.
  cbn [currentLine]. destruct cur as [|ch cur];
    cbn [nonEmpty lineWidth lines currentLine withLines withCurrentLine
         pushLine];
    unfold repeatDash; apply Z.ltb_lt in Hneg; rewrite Hneg;
    eexists; reflexivity.
Qed.

(** *** Alignment *)

(** What [applyAlignment] makes of the alignment field: its [switch] has the
    cases CENTER and RIGHT, and everything else goes the way of LEFT. *)
Definition effectiveAlign (a : N) : N :=
  if (a =? ALIGN_TYPE.CENTER)%N then ALIGN_TYPE.CENTER
  else if (a =? ALIGN_TYPE.RIGHT)%N then ALIGN_TYPE.RIGHT
  else ALIGN_TYPE.LEFT.

(** Two formatter states that differ at most in alignment values that
    [applyAlignment] treats alike. *)
Definition sameLayout (f1 f2 : TextFormatter) : Prop :=
  lines f1 = lines f2 /\
  currentLine f1 = currentLine f2 /\
  isBold f1 = isBold f2 /\
  hasUnderline f1 = hasUnderline f2 /\
  lineWidth f1 = lineWidth f2 /\
  effectiveAlign (currentAlign f1) = effectiveAlign (currentAlign f2).



Lemma sameLayout_refl (f : TextFormatter) : sameLayout f f.
Proof. unfold sameLayout. repeat split. Qed.











(** *** Display width and centring *)

Definition charWidth (c : N) : Z := if isCJKChar c then 2%Z else 1%Z.

Lemma getTextWidth_from (text : jsstring) :
  forall width,
    fold_left (fun width char =>
                 (width + (if isCJKChar char then 2 else 1))%Z) text width
    = (width + fold_right Z.add 0%Z (map charWidth text))%Z.
Proof.
  induction text as [|c text IH]; intros width; simpl.
  - lia.
  - rewrite IH. unfold charWidth. lia.
Qed.

(** Centre alignment as a rule for every line: the line is its styled text
    after [floor((lineWidth - width) / 2)] spaces. *)
Definition padsToCenter (f : TextFormatter) (text : jsstring) : Prop :=
  formatLine f text
  = repeat 32%N
      (Z.to_nat ((lineWidth f - getTextWidth (applyTextStyles f text)) / 2))
    ++ applyTextStyles f text.

(** Against C9 as stated.  A line whose text begins with a space is taken
    as already aligned: under centre alignment at width 10 the text [ Hi]
    (display width 3) stays as it is, where the rule asks for three more
    spaces in front. *)
Lemma center_alignment_skips_leading_space :
  currentAlign
    (withCurrentAlign (newTextFormatter {| optLineWidth := Some 10%Z |})
       ALIGN_TYPE.CENTER) = ALIGN_TYPE.CENTER /\
  formatLine
    (withCurrentAlign (newTextFormatter {| optLineWidth := Some 10%Z |})
       ALIGN_TYPE.CENTER) (js " Hi") = js " Hi" /\
  formatAsText
    [CommandItem "ALIGN" (Some 1%N) None None (js "设置对齐方式: 居中");
     TextItem (js " Hi") (js " Hi") [0x20; 0x48; 0x69]%N "utf8"
       (js "文本: " ++ [34%N] ++ js " Hi" ++ [34%N])]
    {| optLineWidth := Some 10%Z |} = Returns (js " Hi") /\
  ~ padsToCenter
      (withCurrentAlign (newTextFormatter {| optLineWidth := Some 10%Z |})
         ALIGN_TYPE.CENTER) (js " Hi").
Proof.
  split; [reflexivity|]. split; [reflexivity|].
  split; [vm_compute; reflexivity|].
  unfold padsToCenter. vm_compute. discriminate.
Qed.

(** C9, as amended.  The display width of a text is the sum over its
    characters of 2 for a character in one of the two checked ranges (U+4E00
    to U+9FFF, U+FF00 to U+FFEF) and 1 for any other.  Under centre
    alignment a line whose text does not begin with a space is its styled
    text after [floor((lineWidth - width) / 2)] spaces (none when that is
    negative), [width] being the display width of the styled text; a line
    whose text begins with a space is its styled text with no padding.  With
    a decoder that reads the two bytes 48 69 as [Hi], the buffer ESC a 1 H i
    formatted at line width 10 gives the single line of four spaces and
    [Hi]. *)
Theorem center_alignment_padding :
  forall (f : TextFormatter) (text : jsstring)
         (iconv_decode : list N -> string -> option jsstring)
         (encoding : string),
    currentAlign f = ALIGN_TYPE.CENTER ->
    iconv_decode [0x48; 0x69]%N encoding = Some (js "Hi") ->
    (forall t, getTextWidth t = fold_right Z.add 0%Z (map charWidth t)) /\
    (forall c, charWidth c = 2%Z <->
               (0x4e00 <= c <= 0x9fff)%N \/ (0xff00 <= c <= 0xffef)%N) /\
    (forall c, charWidth c = 1%Z <->
               ~ ((0x4e00 <= c <= 0x9fff)%N \/ (0xff00 <= c <= 0xffef)%N)) /\
    (startsWith text (js " ") = false -> padsToCenter f text) /\
    (startsWith text (js " ") = true ->
     formatLine f text = applyTextStyles f text) /\
    parseBuffer iconv_decode [0x1b; 0x61; 0x01; 0x48; 0x69]%N encoding
      = [CommandItem "ALIGN" (Some 1%N) None None (js "设置对齐方式: 居中");
         TextItem (js "Hi") (js "Hi") [0x48; 0x69]%N encoding
           (js "文本: " ++ [34%N] ++ js "Hi" ++ [34%N])] /\
    formatAsText
      (parseBuffer iconv_decode [0x1b; 0x61; 0x01; 0x48; 0x69]%N encoding)
      {| optLineWidth := Some 10%Z |}
      = Returns (repeat 32%N 4 ++ js "Hi").
Proof.
  intros f text iconv_decode encoding Hcenter Hdecode.
  assert (Hparse :
    parseBuffer iconv_decode [0x1b; 0x61; 0x01; 0x48; 0x69]%N encoding
    = [CommandItem "ALIGN" (Some 1%N) None None (js "设置对齐方式: 居中");
       TextItem (js "Hi") (js "Hi") [0x48; 0x69]%N encoding
         (js "文本: " ++ [34%N] ++ js "Hi" ++ [34%N])]).
  { vm_compute. vm_compute in Hdecode. rewrite Hdecode. reflexivity. }
  split; [|split; [|split; [|split; [|split; [|split]]]]].
  - intros t. unfold getTextWidth. rewrite getTextWidth_from. lia.
  - intros c. unfold charWidth, isCJKChar.
    destruct (N.leb_spec 0x4e00 c), (N.leb_spec c 0x9fff),
             (N.leb_spec 0xff00 c), (N.leb_spec c 0xffef);
      cbn [andb orb]; split; intros; try lia; try discriminate.
  - intros c. unfold charWidth, isCJKChar.
    destruct (N.leb_spec 0x4e00 c), (N.leb_spec c 0x9fff),
             (N.leb_spec 0xff00 c), (N.leb_spec c 0xffef);
      cbn [andb orb]; split; intros; try lia; try discriminate.
  - intros Hstart. unfold padsToCenter, formatLine, applyAlignment.
    rewrite Hstart, Hcenter.
    cbn [N.eqb ALIGN_TYPE.CENTER Pos.eqb]. unfold spaces.
    change (js " ") with [32%N]. rewrite repeatString_single.
    rewrite Z2Nat.inj_max. cbn [Z.to_nat]. rewrite Nat.max_0_l. reflexivity.
  - intros Hstart. unfold formatLine, applyAlignment. rewrite Hstart.
    reflexivity.
  - exact Hparse.
  - rewrite Hparse. vm_compute. reflexivity.
Qed.

Lemma center_alignment_padding_witness :
  padsToCenter
    {| lines := []; currentLine := []; currentAlign := 1; isBold := true;
       hasUnderline := false; lineWidth := 10 |} (js "中A") /\
  formatAsText
    (parseBuffer sampleDecode [0x1b; 0x61; 0x01; 0x48; 0x69]%N "utf8")
    {| optLineWidth := Some 10%Z |}
  = Returns (repeat 32%N 4 ++ js "Hi").
Proof.
  pose proof (center_alignment_padding
                {| lines := []; currentLine := []; currentAlign := 1;
                   isBold := true; hasUnderline := false; lineWidth := 10 |}
                (js "中A") sampleDecode "utf8"
                eq_refl eq_refl) as H.
  split.
  - exact (proj1 (proj2 (proj2 (proj2 H))) eq_refl).
  - exact (proj2 (proj2 (proj2 (proj2 (proj2 (proj2 H)))))).
Defined.

Example center_alignment_example :
  formatLine
    {| lines := []; currentLine := []; currentAlign := 1; isBold := true;
       hasUnderline := false; lineWidth := 10 |} (js "中A")
  = js "  【中A】".
Proof. vm_compute. reflexivity. Qed.

(** * The report builder and further properties *)

(** ** lib/parser.js: [generateSummary] and [generateReport] *)

Module Report.

(** The [summary] object. *)
Record Summary : Type := {
  totalItems : nat;
  commands : nat;
  textBlocks : nat;
  totalBytes : nat
}.

(** The body of the [for ... of] loop of [generateSummary]; [item.bytes] of a
    text item is an array, so the test [item.bytes ? ... : 0] takes its
    length. *)
Definition countItem (summary : Summary) (it : Item) : Summary :=
  match it with
  | CommandItem _ _ _ _ _ =>
      {| totalItems := totalItems summary;
         commands := commands summary + 1;
         textBlocks := textBlocks summary;
         totalBytes := totalBytes summary |}
  | TextItem _ _ bytes _ _ =>
      {| totalItems := totalItems summary;
         commands := commands summary;
         textBlocks := textBlocks summary + 1;
         totalBytes := totalBytes summary + length bytes |}
  end.

Definition generateSummary (parseResult : list Item) : Summary :=
  fold_left countItem parseResult
    {| totalItems := length parseResult; commands := 0; textBlocks := 0;
       totalBytes := 0 |}.

(** The object [{ summary, items, formattedText }]. *)
Record ReportObject : Type := {
  summary : Summary;
  items : list Item;
  formattedText : jsstring
}.

(** The argument is an array by its type; [formatAsText] is called with its
    default options. *)
Definition generateReport (parseResult : list Item) : Outcome ReportObject :=
  let summary := generateSummary parseResult in
  formattedText <- formatAsText parseResult {| optLineWidth := None |} ;;
  Returns {| summary := summary; items := parseResult;
             formattedText := formattedText |}.

End Report.

Import Report.

(** ** The summary *)

Definition isCommandItem (it : Item) : bool :=
  match it with
  | CommandItem _ _ _ _ _ => true
  | TextItem _ _ _ _ _ => false
  end.

Definition textLength (it : Item) : nat :=
  match it with
  | CommandItem _ _ _ _ _ => 0
  | TextItem _ _ bytes _ _ => length bytes
  end.

Lemma countItem_fold (parseResult : list Item) :
  forall summary,
    totalItems (fold_left countItem parseResult summary) = totalItems summary /\
    commands (fold_left countItem parseResult summary)
      = commands summary + length (filter isCommandItem parseResult) /\
    textBlocks (fold_left countItem parseResult summary)
      = textBlocks summary
        + length (filter (fun it => negb (isCommandItem it)) parseResult) /\
    totalBytes (fold_left countItem parseResult summary)
      = totalBytes summary + list_sum (map textLength parseResult).
Proof.
  induction parseResult as [|it rest IH]; intros summary.
  - simpl. repeat split; lia.
  - cbn [fold_left]. destruct (IH (countItem summary it)) as (H1 & H2 & H3 & H4).
    rewrite H1, H2, H3, H4.
    destruct it; simpl; repeat split; lia.
Qed.

(** X1. The summary counts every item once: the number of commands and the
    number of text blocks add up to the number of items, the byte total is
    the sum of the lengths of the byte runs of the text items, and the
    summary of two results put end to end is the sum of their summaries,
    field by field. *)
Theorem generateSummary_counts :
  forall (l1 l2 : list Item),
    commands (generateSummary l1) + textBlocks (generateSummary l1)
      = totalItems (generateSummary l1) /\
    totalItems (generateSummary l1) = length l1 /\
    totalBytes (generateSummary l1) = list_sum (map textLength l1) /\
    totalItems (generateSummary (l1 ++ l2))
      = totalItems (generateSummary l1) + totalItems (generateSummary l2) /\
    commands (generateSummary (l1 ++ l2))
      = commands (generateSummary l1) + commands (generateSummary l2) /\
    textBlocks (generateSummary (l1 ++ l2))
      = textBlocks (generateSummary l1) + textBlocks (generateSummary l2) /\
    totalBytes (generateSummary (l1 ++ l2))
      = totalBytes (generateSummary l1) + totalBytes (generateSummary l2).
Proof.
  intros l1 l2. unfold generateSummary.
  destruct (countItem_fold l1
              {| totalItems := length l1; commands := 0; textBlocks := 0;
                 totalBytes := 0 |}) as (A1 & A2 & A3 & A4).
  destruct (countItem_fold l2
              {| totalItems := length l2; commands := 0; textBlocks := 0;
                 totalBytes := 0 |}) as (B1 & B2 & B3 & B4).
  destruct (countItem_fold (l1 ++ l2)
              {| totalItems := length (l1 ++ l2); commands := 0;
                 textBlocks := 0; totalBytes := 0 |}) as (C1 & C2 & C3 & C4).
  rewrite A1, A2, A3, A4, B1, B2, B3, B4, C1, C2, C3, C4.
  cbn [totalItems commands textBlocks totalBytes].
  rewrite !filter_app, map_app, list_sum_app, !length_app.
  assert (Hsplit : length (filter isCommandItem l1)
                   + length (filter (fun it => negb (isCommandItem it)) l1)
                   = length l1).
  { clear. induction l1 as [|it l IH]; [reflexivity|].
    simpl. destruct (isCommandItem it); simpl; lia. }
  repeat split; lia.
Qed.

(** ** The summary of a parse against the size of the buffer *)

Definition skippedCount (segs : list Segment) : nat :=
  length (filter (fun seg => match seg with
                             | Skipped _ => true
                             | Token _ => false
                             end) segs).

Lemma skippedCount_app (l1 l2 : list Segment) :
  skippedCount (l1 ++ l2) = skippedCount l1 + skippedCount l2.
Proof. unfold skippedCount. rewrite filter_app, length_app. reflexivity. Qed.

Lemma skippedCount_skipped (l : list N) :
  skippedCount (map Skipped l) = length l.
Proof.
  unfold skippedCount. induction l as [|b l IH]; simpl; [reflexivity|].
  rewrite IH. reflexivity.
Qed.

Lemma parseCommand_nextIndex_le (buffer : list N) (index : nat)
  (c : CommandDef) :
  nextIndex (parseCommand buffer index c) <= index + length (bytes c) + 1.
Proof.
  unfold parseCommand. destruct (parse c) as [p|]; simpl; [|lia].
  destruct (itemValue (p buffer index)); simpl; lia.
Qed.

Section Accounting.

Variable iconv_decode : list N -> string -> option jsstring.
Variables (buffer : list N) (encoding : string).

Let commandCount (segs : list Segment) : nat :=
  length (filter isCommandItem (tokensOf segs)).
Let textBytes (segs : list Segment) : nat :=
  list_sum (map textLength (tokensOf segs)).

Lemma segmentsFrom_accounting :
  forall index,
    index <= length buffer ->
    textBytes (segmentsFrom iconv_decode buffer encoding index)
    + 2 * commandCount (segmentsFrom iconv_decode buffer encoding index)
    + skippedCount (segmentsFrom iconv_decode buffer encoding index)
      <= length buffer - index /\
    length buffer - index
      <= textBytes (segmentsFrom iconv_decode buffer encoding index)
         + 3 * commandCount (segmentsFrom iconv_decode buffer encoding index)
         + skippedCount (segmentsFrom iconv_decode buffer encoding index).
Proof.
  intros index. pattern index.
  apply (cursor_ind iconv_decode buffer encoding). clear index.
  intros index IH Hle. rewrite segmentsFrom_step.
  destruct (Nat.ltb_spec index (length buffer)) as [Hlt|Hge].
  2:{ unfold textBytes, commandCount, skippedCount. simpl. lia. }
  pose proof (@parseNextItem_progress iconv_decode buffer index encoding Hlt)
    as Hb.
  specialize (IH Hlt ltac:(lia)).
  pose proof (step_shape iconv_decode buffer encoding index Hlt) as Hshape.
  remember (parseNextItem iconv_decode buffer index encoding) as pr eqn:Hpr.
  clear Hpr.
  unfold textBytes, commandCount in *.
  rewrite tokensOf_app, filter_app, map_app, list_sum_app, length_app,
    skippedCount_app.
  destruct Hshape
    as [c it Hfind Hpc Hitem Hname Hcons Hsegs
       |skipped _ Hitem Hskip Hslice Hsegs
       |skipped d t run e ds _ Hitem Hne Hskip Hslice Hclear Hsegs];
    rewrite Hsegs.
  - destruct it; [|discriminate].
    pose proof (@parseCommand_bounds buffer index c Hfind) as Hlo.
    pose proof (parseCommand_nextIndex_le buffer index c) as Hhi.
    rewrite <- Hpc in Hlo, Hhi.
    destruct (@findCommandIn_sound COMMANDS buffer index c Hfind) as [Hin _].
    pose proof COMMANDS_shape as Hall. rewrite Forall_forall in Hall.
    destruct (Hall c Hin) as (H2 & _).
    cbn [tokensOf flat_map app filter isCommandItem map textLength list_sum
         length skippedCount]. simpl. lia.
  - rewrite tokensOf_skipped, skippedCount_skipped.
    assert (Hlen : length skipped = nextIndex pr - index).
    { rewrite Hslice. apply length_slice. lia. }
    simpl. lia.
  - rewrite tokensOf_app, tokensOf_skipped, skippedCount_app,
      skippedCount_skipped.
    assert (Hlen : length skipped + length run = nextIndex pr - index).
    { rewrite <- length_app, Hslice. apply length_slice. lia. }
    cbn [tokensOf flat_map app filter isCommandItem map textLength list_sum
         length skippedCount]. simpl. lia.
Qed.

End Accounting.

(** X2. The summary of a parse accounts for the buffer: the text bytes, the
    bytes passed over and two or three bytes for each command (its signature,
    and its parameter byte when there is one) make up the length of the
    buffer.  In particular the byte total of the summary plus twice its
    number of commands never exceeds the length of the buffer. *)
Theorem generateSummary_of_parse :
  forall (iconv_decode : list N -> string -> option jsstring)
         (buffer : list N) (encoding : string),
    totalBytes (generateSummary (parseBuffer iconv_decode buffer encoding))
    + 2 * commands (generateSummary (parseBuffer iconv_decode buffer encoding))
    + skippedCount (segments iconv_decode buffer encoding)
      <= length buffer /\
    length buffer
      <= totalBytes (generateSummary (parseBuffer iconv_decode buffer encoding))
         + 3 * commands (generateSummary
                           (parseBuffer iconv_decode buffer encoding))
         + skippedCount (segments iconv_decode buffer encoding) /\
    totalBytes (generateSummary (parseBuffer iconv_decode buffer encoding))
    + 2 * commands (generateSummary (parseBuffer iconv_decode buffer encoding))
      <= length buffer.
Proof.
  intros iconv_decode buffer encoding.
  pose proof (segmentsFrom_accounting iconv_decode buffer encoding 0
                ltac:(lia)) as [Hlo Hhi].
  rewrite parseBuffer_tokens. unfold generateSummary.
  destruct (countItem_fold (tokensOf (segments iconv_decode buffer encoding))
              {| totalItems :=
                   length (tokensOf (segments iconv_decode buffer encoding));
                 commands := 0; textBlocks := 0; totalBytes := 0 |})
    as (_ & H2 & _ & H4).
  rewrite H2, H4. cbn [commands totalBytes].
  unfold segments in *. rewrite Nat.sub_0_r in Hlo, Hhi. lia.
Qed.

(** ** When the formatter throws, and what a pass keeps *)

Definition isCutPaper (it : Item) : bool :=
  match it with
  | CommandItem command _ _ _ _ => String.eqb command "CUT_PAPER"
  | TextItem _ _ _ _ _ => false
  end.

(** [later] continues [earlier]: the same lines, followed by more. *)
Definition extends (earlier later : list jsstring) : Prop :=
  exists added, later = earlier ++ added.

Lemma extends_refl (l : list jsstring) : extends l l.
Proof. exists []. rewrite app_nil_r. reflexivity. Qed.

Lemma extends_trans (l1 l2 l3 : list jsstring) :
  extends l1 l2 -> extends l2 l3 -> extends l1 l3.
Proof.
  intros [a ->] [b ->]. exists (a ++ b). rewrite app_assoc. reflexivity.
Qed.

Lemma extends_app (l added : list jsstring) : extends l (l ++ added).
Proof. exists added. reflexivity. Qed.

Lemma flushCurrentLine_keeps (f : TextFormatter) :
  extends (lines f) (lines (flushCurrentLine f)) /\
  lineWidth (flushCurrentLine f) = lineWidth f.
Proof.
  unfold flushCurrentLine. destruct (nonEmpty (currentLine f)).
  - split; [apply extends_app | reflexivity].
  - split; [apply extends_refl | reflexivity].
Qed.

Lemma processTextItem_keeps (f : TextFormatter) (text : jsstring) :
  extends (lines f) (lines (processTextItem f text)) /\
  lineWidth (processTextItem f text) = lineWidth f.
Proof.
  unfold processTextItem.
  destruct (negb (nonEmpty text)); [split; [apply extends_refl|reflexivity]|].
  destruct (startsWith text [10%N]); [apply flushCurrentLine_keeps|].
  match goal with |- context [length ?l =? 0] => destruct (length l =? 0) end;
    split; try apply extends_refl; reflexivity.
Qed.

(** One command: it throws exactly when it is a cut and the line width is
    negative; otherwise the new state keeps the lines and the width. *)
Lemma processCommandItem_outcome (f : TextFormatter) (command : string)
  (value : option N) :
  match processCommandItem f command value with
  | Returns f' =>
      extends (lines f) (lines f') /\ lineWidth f' = lineWidth f /\
      ~ (String.eqb command "CUT_PAPER" = true /\ (lineWidth f < 0)%Z)
  | Throws _ =>
      String.eqb command "CUT_PAPER" = true /\ (lineWidth f < 0)%Z
  end.
Proof.
  unfold processCommandItem.
  destruct (String.eqb_spec command "ALIGN") as [->|_].
  { split; [apply extends_refl|]. split; [reflexivity|].
    intros [H _]. discriminate. }
  destruct (String.eqb_spec command "BOLD") as [->|_].
  { split; [apply extends_refl|]. split; [reflexivity|].
    intros [H _]. discriminate. }
  destruct (String.eqb_spec command "BOLD_MODE") as [->|_].
  { split; [apply extends_refl|]. split; [reflexivity|].
    intros [H _]. discriminate. }
  cbn [orb].
  destruct (String.eqb_spec command "UNDERLINE") as [->|_].
  { split; [apply extends_refl|]. split; [reflexivity|].
    intros [H _]. discriminate. }
  assert (Hfeed :
    forall g,
      extends (lines f) (lines g) -> lineWidth g = lineWidth f ->
      extends (lines f)
        (lines
           (let g1 :=
              if (1 <? valueOr value 1)%N
              then withLines g
                     (lines g ++ repeat [] (N.to_nat (valueOr value 1) - 1))
              else g in
            if nonEmpty (lines g1) && includes (last (lines g1) []) (js "---")
            then pushLine g1 [] else g1)) /\
      lineWidth
        (let g1 :=
           if (1 <? valueOr value 1)%N
           then withLines g
                  (lines g ++ repeat [] (N.to_nat (valueOr value 1) - 1))
           else g in
         if nonEmpty (lines g1) && includes (last (lines g1) []) (js "---")
         then pushLine g1 [] else g1) = lineWidth f).
  { intros g Hext Hw. cbv zeta.
    destruct (1 <? valueOr value 1)%N;
      match goal with
      | |- context [if ?b then pushLine _ _ else _] => destruct b
      end;
      cbn [lines lineWidth pushLine withLines];
      (split; [|exact Hw]);
      repeat (eapply extends_trans; [|apply extends_app]); exact Hext. }
  destruct (String.eqb_spec command "PRINT_AND_FEED") as [->|_].
  { destruct (flushCurrentLine_keeps f) as [Hext Hw].
    destruct (Hfeed (flushCurrentLine f) Hext Hw) as [H1 H2].
    split; [exact H1|]. split; [exact H2|]. intros [H _]. discriminate. }
  destruct (String.eqb_spec command "LINE_FEED") as [->|_].
  { destruct (flushCurrentLine_keeps f) as [Hext Hw].
    destruct (Hfeed (flushCurrentLine f) Hext Hw) as [H1 H2].
    split; [exact H1|]. split; [exact H2|]. intros [H _]. discriminate. }
  cbn [orb]. clear Hfeed.
  destruct (String.eqb_spec command "CUT_PAPER") as [->|_].
  { unfold processCutPaperCommand.
    destruct (flushCurrentLine_keeps f) as [Hext Hw].
    cbn [lineWidth withLines pushLine]. rewrite Hw. unfold repeatDash.
    destruct (Z.ltb_spec (lineWidth f) 0) as [Hneg|Hpos]; cbn [bind].
    - split; [reflexivity | exact Hneg].
    - cbn [lines lineWidth pushLine withLines].
      split; [|split; [exact Hw | intros [_ H]; lia]].
      repeat (eapply extends_trans; [|apply extends_app]). exact Hext. }
  destruct (String.eqb_spec command "INITIALIZE") as [->|_].
  { unfold processInitializeCommand, resetFormat.
    destruct (nonEmpty (currentLine f));
      cbn [lines lineWidth addFormattedLine pushLine withLines];
      (split; [|split; [reflexivity | intros [H _]; discriminate]]);
      [apply extends_app | apply extends_refl]. }
  destruct (String.eqb command "FONT_SIZE");
    (split; [apply extends_refl|]; split; [reflexivity|]);
    intros [H _]; discriminate.
Qed.

Lemma processItem_outcome (f : TextFormatter) (it : Item) :
  match processItem f it with
  | Returns f' =>
      extends (lines f) (lines f') /\ lineWidth f' = lineWidth f /\
      ~ (isCutPaper it = true /\ (lineWidth f < 0)%Z)
  | Throws _ => isCutPaper it = true /\ (lineWidth f < 0)%Z
  end.
Proof.
  destruct it as [command value w h d|d text bs e ds].
  - apply processCommandItem_outcome.
  - cbn [processItem isCutPaper].
    destruct (processTextItem_keeps f text) as [H1 H2].
    split; [exact H1|]. split; [exact H2|]. intros [H _]. discriminate.
Qed.

Lemma processItems_outcome (items : list Item) :
  forall f,
    match processItems f items with
    | Returns f' =>
        extends (lines f) (lines f') /\ lineWidth f' = lineWidth f /\
        ~ (existsb isCutPaper items = true /\ (lineWidth f < 0)%Z)
    | Throws _ => existsb isCutPaper items = true /\ (lineWidth f < 0)%Z
    end.
Proof.
  induction items as [|it items IH]; intros f.
  - cbn [processItems existsb]. split; [apply extends_refl|].
    split; [reflexivity|]. intros [H _]. discriminate.
  - cbn [processItems existsb].
    pose proof (processItem_outcome f it) as Hstep.
    destruct (processItem f it) as [g|m]; cbn [bind].
    + destruct Hstep as (Hext & Hw & Hno).
      specialize (IH g). destruct (processItems g items) as [g'|m'].
      * destruct IH as (Hext' & Hw' & Hno').
        split; [eapply extends_trans; eassumption|].
        split; [congruence|].
        intros [Hcut Hneg]. apply orb_true_iff in Hcut as [Hcut|Hcut].
        -- apply Hno. auto.
        -- apply Hno'. rewrite Hw. auto.
      * destruct IH as [Hcut Hneg]. rewrite Hw in Hneg.
        split; [rewrite Hcut; apply orb_true_r | exact Hneg].
    + destruct Hstep as [Hcut Hneg]. rewrite Hcut. auto.
Qed.

(** X3. A CUT_PAPER command at a negative line width makes [formatAsText]
    throw, wherever the command stands among the items: the line width never
    changes during a pass, so whatever comes before the cut, the rule of
    [lineWidth] dashes is asked for with a negative count (the [RangeError]
    of ['-'.repeat]). *)
Theorem formatAsText_cut_at_negative_width :
  forall (items : list Item) (options : Options) (w : Z),
    existsb isCutPaper items = true ->
    optLineWidth options = Some w ->
    (w < 0)%Z ->
    exists message, formatAsText items options = Throws message.
Proof.
  intros items options w Hcut Hopt Hneg. unfold formatAsText, format.
  pose proof (processItems_outcome items (newTextFormatter options)) as H.
  assert (Hw : (lineWidth (newTextFormatter options) < 0)%Z).
  { cbn [newTextFormatter lineWidth]. rewrite Hopt.
    destruct (Z.eqb_spec w 0); [lia | exact Hneg]. }
  destruct (processItems (newTextFormatter options) items) as [g|m];
    cbn [bind].
  - destruct H as (_ & _ & Hno). exfalso. apply Hno. auto.
  - eexists. reflexivity.
Qed.

Lemma formatAsText_cut_at_negative_width_witness :
  exists message,
    formatAsText
      [TextItem (js "Hi") (js "Hi") [0x48; 0x69]%N "utf8" (js "Hi");
       fullCutItem;
       TextItem (js "ok") (js "ok") [0x6f; 0x6b]%N "utf8" (js "ok")]
      {| optLineWidth := Some (-1)%Z |}
    = Throws message.
Proof.
  apply (formatAsText_cut_at_negative_width _ _ (-1)%Z);
    [reflexivity | reflexivity | lia].
Defined.

(** X4. [generateReport] never throws: it formats at the default width, so
    it returns the summary, the items unchanged and the text that
    [formatAsText] gives for the default options. *)
Theorem generateReport_returns :
  forall (parseResult : list Item),
    exists text,
      formatAsText parseResult {| optLineWidth := None |} = Returns text /\
      generateReport parseResult
        = Returns {| summary := generateSummary parseResult;
                     items := parseResult;
                     formattedText := text |}.
Proof.
  intros parseResult. unfold generateReport.
  destruct (formatAsText parseResult {| optLineWidth := None |})
    as [text|message] eqn:Hformat.
  - exists text. split; reflexivity.
  - exfalso. unfold formatAsText, format in Hformat.
    pose proof (processItems_outcome parseResult
                  (newTextFormatter {| optLineWidth := None |})) as H.
    destruct (processItems (newTextFormatter {| optLineWidth := None |})
                parseResult) as [g|m]; cbn [bind] in Hformat;
      [discriminate|].
    destruct H as [_ Hneg]. cbn in Hneg. discriminate.
Qed.

(** X5. A pass over items only ever appends to the finalized lines and never
    changes the line width: when the items are processed without an error,
    the lines before are a prefix of the lines after. *)
Theorem processItems_appends_lines :
  forall (f f' : TextFormatter) (items : list Item),
    processItems f items = Returns f' ->
    (exists added, lines f' = lines f ++ added) /\
    lineWidth f' = lineWidth f.
Proof.
  intros f f' items Hrun.
  pose proof (processItems_outcome items f) as H. rewrite Hrun in H.
  destruct H as (Hext & Hw & _). split; [exact Hext | exact Hw].
Qed.

Lemma processItems_appends_lines_witness :
  (exists added,
      lines {| lines := [js "Total"; js "Bye"]; currentLine := [];
               currentAlign := 1; isBold := false; hasUnderline := false;
               lineWidth := 4 |}
      = lines {| lines := [js "Total"]; currentLine := js "Bye";
                 currentAlign := 0; isBold := false; hasUnderline := false;
                 lineWidth := 4 |} ++ added) /\
  lineWidth {| lines := [js "Total"; js "Bye"]; currentLine := [];
               currentAlign := 1; isBold := false; hasUnderline := false;
               lineWidth := 4 |}
  = lineWidth {| lines := [js "Total"]; currentLine := js "Bye";
                 currentAlign := 0; isBold := false; hasUnderline := false;
                 lineWidth := 4 |}.
Proof.
  apply (processItems_appends_lines
           {| lines := [js "Total"]; currentLine := js "Bye";
              currentAlign := 0; isBold := false; hasUnderline := false;
              lineWidth := 4 |}
           {| lines := [js "Total"; js "Bye"]; currentLine := [];
              currentAlign := 1; isBold := false; hasUnderline := false;
              lineWidth := 4 |}
           [TextItem [10%N] [10%N] [10%N] "utf8" [];
            CommandItem "ALIGN" (Some 1%N) None None []]).
  reflexivity.
Defined.

Lemma applyTextStyles_length (f : TextFormatter) (text : jsstring) :
  length text <= length (applyTextStyles f text).
Proof.
  unfold applyTextStyles.
  destruct (isBold f), (hasUnderline f); rewrite ?length_app; simpl;
    rewrite ?length_app; simpl; lia.
Qed.

Lemma formatLine_length (f : TextFormatter) (text : jsstring) :
  length text <= length (formatLine f text).
Proof.
  pose proof (applyTextStyles_length f text) as H.
  unfold formatLine, applyAlignment.
  destruct (startsWith text (js " ")); [exact H|].
  destruct (currentAlign f =? ALIGN_TYPE.CENTER)%N;
    [rewrite length_app; lia|].
  destruct (currentAlign f =? ALIGN_TYPE.RIGHT)%N;
    [rewrite length_app; lia | exact H].
Qed.

(** X6. A text item never inserts a blank line: it leaves the finalized
    lines as they are, or (a newline item after some text) appends the one
    line in progress, which is not empty. *)
Theorem processTextItem_no_blank_line :
  forall (f : TextFormatter) (text : jsstring),
    lines (processTextItem f text) = lines f \/
    exists line,
      line <> [] /\ lines (processTextItem f text) = lines f ++ [line].
Proof.
  intros f text. unfold processTextItem.
  destruct (negb (nonEmpty text)); [left; reflexivity|].
  destruct (startsWith text [10%N]).
  - unfold flushCurrentLine.
    destruct (currentLine f) as [|c cur] eqn:Hcur; [left; reflexivity|].
    right. exists (formatLine f (c :: cur)). split; [|reflexivity].
    pose proof (formatLine_length f (c :: cur)) as Hlen.
    intros Hnil. rewrite Hnil in Hlen. simpl in Hlen. lia.
  - match goal with |- context [length ?l =? 0] => destruct (length l =? 0) end;
      left; reflexivity.
Qed.

(** ** Text on one line *)

(** The cleaning of [processTextItem]: control characters and [!] removed. *)
Definition cleanText (text : jsstring) : jsstring :=
  filter (fun c => negb (c =? 33)%N)
         (filter (fun c => negb (isControlChar c)) text).

Definition itemText (it : Item) : jsstring :=
  match it with
  | CommandItem _ _ _ _ _ => []
  | TextItem _ text _ _ _ => text
  end.

(** A text item that is not a newline item. *)
Definition isPlainText (it : Item) : bool :=
  match it with
  | CommandItem _ _ _ _ _ => false
  | TextItem _ text _ _ _ => negb (startsWith text [10%N])
  end.

Lemma withCurrentLine_same (f : TextFormatter) :
  withCurrentLine f (currentLine f ++ []) = f.
Proof. destruct f. unfold withCurrentLine. simpl. rewrite app_nil_r. reflexivity. Qed.

Lemma processTextItem_plain (f : TextFormatter) (text : jsstring) :
  startsWith text [10%N] = false ->
  processTextItem f text = withCurrentLine f (currentLine f ++ cleanText text).
Proof.
  intros Hplain. unfold processTextItem. fold (cleanText text).
  destruct text as [|c text].
  - cbn [nonEmpty negb]. symmetry. apply withCurrentLine_same.
  - cbn [nonEmpty negb]. rewrite Hplain.
    destruct (cleanText (c :: text)) as [|c' rest] eqn:Hclean.
    + cbn [length Nat.eqb]. symmetry. apply withCurrentLine_same.
    + reflexivity.
Qed.

Lemma processItems_plain (items : list Item) :
  forall f,
    forallb isPlainText items = true ->
    processItems f items
    = Returns (withCurrentLine f
                 (currentLine f
                  ++ concat (map (fun it => cleanText (itemText it)) items))).
Proof.
  induction items as [|it items IH]; intros f Hall.
  - cbn [processItems map concat]. rewrite withCurrentLine_same. reflexivity.
  - cbn [forallb] in Hall. apply andb_true_iff in Hall as [Hit Hrest].
    destruct it as [? ? ? ? ?|d text bs e ds]; [discriminate|].
    cbn [isPlainText] in Hit. apply negb_true_iff in Hit.
    cbn [processItems processItem bind].
    rewrite (processTextItem_plain f text Hit), (IH _ Hrest).
    cbn [map concat itemText]. unfold withCurrentLine.
    cbn [lines currentLine currentAlign isBold hasUnderline lineWidth].
    rewrite app_assoc. reflexivity.
Qed.

(** X7. Text items that are not newline items run on into one line: at any
    line width, the formatted text of a sequence of such items is the
    concatenation of their cleaned texts (control characters and [!]
    removed), with no line break and no padding. *)
Theorem formatAsText_plain_text :
  forall (items : list Item) (options : Options),
    forallb isPlainText items = true ->
    formatAsText items options
    = Returns (concat (map (fun it => cleanText (itemText it)) items)).
Proof.
  intros items options Hall. unfold formatAsText, format.
  rewrite (processItems_plain items _ Hall). cbn [bind].
  unfold finalizeLine, withCurrentLine, newTextFormatter.
  cbn [lines currentLine currentAlign isBold hasUnderline lineWidth app].
  destruct (concat (map (fun it => cleanText (itemText it)) items))
    as [|c rest] eqn:Hline; [reflexivity|].
  cbn [nonEmpty]. unfold addFormattedLine, pushLine, withLines, formatLine,
    applyTextStyles, applyAlignment.
  cbn [lines currentLine currentAlign isBold hasUnderline lineWidth app join].
  destruct (startsWith (c :: rest) (js " ")); reflexivity.
Qed.

Lemma formatAsText_plain_text_witness :
  formatAsText
    [TextItem (js "Hi!") (js "Hi!") [72; 105; 33]%N "utf8" [];
     TextItem (js " there") (js " there") [32; 116; 104; 101; 114; 101]%N
       "utf8" []]
    {| optLineWidth := Some 10%Z |}
  = Returns
      (concat
         (map (fun it => cleanText (itemText it))
            [TextItem (js "Hi!") (js "Hi!") [72; 105; 33]%N "utf8" [];
             TextItem (js " there") (js " there")
               [32; 116; 104; 101; 114; 101]%N "utf8" []])).
Proof.
  apply (formatAsText_plain_text
           [TextItem (js "Hi!") (js "Hi!") [72; 105; 33]%N "utf8" [];
            TextItem (js " there") (js " there")
              [32; 116; 104; 101; 114; 101]%N "utf8" []]
           {| optLineWidth := Some 10%Z |}).
  reflexivity.
Defined.

(** ** The width of an aligned line *)

Lemma getTextWidth_app (a b : jsstring) :
  getTextWidth (a ++ b) = (getTextWidth a + getTextWidth b)%Z.
Proof.
  unfold getTextWidth. rewrite !getTextWidth_from, map_app.
  induction a as [|c a IH]; simpl; lia.
Qed.

Lemma getTextWidth_spaces (n : Z) : getTextWidth (spaces n) = Z.max 0 n.
Proof.
  unfold spaces. change (js " ") with [32%N]. rewrite repeatString_single.
  assert (H : forall k, getTextWidth (repeat 32%N k) = Z.of_nat k).
  { induction k as [|k IH]; [reflexivity|].
    change (repeat 32%N (S k)) with ([32%N] ++ repeat 32%N k).
    rewrite getTextWidth_app, IH. change (getTextWidth [32%N]) with 1%Z. lia. }
  rewrite H. lia.
Qed.

(** X8. The display width of an aligned line, for a text that does not
    begin with a space and has styled width [w]: right alignment gives a line
    of width [max lineWidth w], so it ends exactly at the line width whenever
    the text fits; centre alignment gives [w + max 0 (floor((lineWidth - w)
    / 2))], which is at most [max lineWidth w].  Padding never makes a line
    wider than the line width unless the text alone already is. *)
Theorem aligned_line_width :
  forall (f : TextFormatter) (text : jsstring),
    startsWith text (js " ") = false ->
    (currentAlign f = ALIGN_TYPE.RIGHT ->
     getTextWidth (formatLine f text)
     = Z.max (lineWidth f) (getTextWidth (applyTextStyles f text))) /\
    (currentAlign f = ALIGN_TYPE.CENTER ->
     getTextWidth (formatLine f text)
     = (getTextWidth (applyTextStyles f text)
        + Z.max 0 ((lineWidth f - getTextWidth (applyTextStyles f text)) / 2))%Z
     /\
     (getTextWidth (formatLine f text)
      <= Z.max (lineWidth f) (getTextWidth (applyTextStyles f text)))%Z).
Proof.
  intros f text Hstart. unfold formatLine, applyAlignment. rewrite Hstart.
  split.
  - intros ->. cbn [N.eqb ALIGN_TYPE.RIGHT ALIGN_TYPE.CENTER Pos.eqb].
    rewrite getTextWidth_app, getTextWidth_spaces. lia.
  - intros ->. cbn [N.eqb ALIGN_TYPE.CENTER Pos.eqb].
    rewrite getTextWidth_app, getTextWidth_spaces.
    split; [lia|].
    set (w := getTextWidth (applyTextStyles f text)).
    destruct (Z.le_gt_cases w (lineWidth f)) as [Hfit|Hwide].
    + assert ((lineWidth f - w) / 2 <= lineWidth f - w)%Z
        by (apply Z.div_le_upper_bound; lia).
      assert (0 <= (lineWidth f - w) / 2)%Z by (apply Z.div_pos; lia).
      lia.
    + assert ((lineWidth f - w) / 2 < 0)%Z
        by (apply Z.div_lt_upper_bound; lia).
      lia.
Qed.

Lemma aligned_line_width_witness :
  getTextWidth
    (formatLine
       {| lines := []; currentLine := []; currentAlign := 2; isBold := false;
          hasUnderline := true; lineWidth := 12 |} (js "合计 8"))
  = Z.max 12 (getTextWidth
                (applyTextStyles
                   {| lines := []; currentLine := []; currentAlign := 2;
                      isBold := false; hasUnderline := true;
                      lineWidth := 12 |} (js "合计 8"))).
Proof.
  apply (proj1 (aligned_line_width
                  {| lines := []; currentLine := []; currentAlign := 2;
                     isBold := false; hasUnderline := true; lineWidth := 12 |}
                  (js "合计 8") eq_refl)).
  reflexivity.
Defined.

(** ** The registry as it stands *)

Lemma COMMANDS_signatures_distinct : NoDup (map bytes COMMANDS).
Proof.
  unfold COMMANDS. cbn [map bytes INITIALIZE ALIGN PRINT_AND_FEED CUT_PAPER
    FONT_SIZE BOLD UNDERLINE LINE_SPACING CHAR_SPACING BOLD_MODE].
  repeat (constructor; [cbn [In]; intuition discriminate|]).
  constructor.
Qed.

Lemma NoDup_map_injective {A B} (g : A -> B) (l : list A) (x y : A) :
  NoDup (map g l) -> In x l -> In y l -> g x = g y -> x = y.
Proof.
  induction l as [|a l IH]; intros Hnd Hx Hy Heq; [contradiction|].
  cbn [map] in Hnd. inversion Hnd as [|? ? Hnotin Hnd']; subst.
  destruct Hx as [->|Hx], Hy as [->|Hy]; auto.
  - exfalso. apply Hnotin. rewrite Heq. apply in_map. exact Hy.
  - exfalso. apply Hnotin. rewrite <- Heq. apply in_map. exact Hx.
Qed.

Lemma registered_signature_length (c : CommandDef) :
  In c COMMANDS -> length (bytes c) = 2.
Proof.
  intros Hin. pose proof COMMANDS_shape as Hall.
  rewrite Forall_forall in Hall. destruct (Hall c Hin) as (H2 & _). exact H2.
Qed.

(** At most one registered signature matches at a position. *)
Lemma registered_match_unique (data : list N) (index : nat)
  (c d : CommandDef) :
  In c COMMANDS -> In d COMMANDS ->
  matchesAt data index (bytes c) -> matchesAt data index (bytes d) ->
  c = d.
Proof.
  intros Hc Hd Hmc Hmd.
  apply (NoDup_map_injective bytes COMMANDS c d
           COMMANDS_signatures_distinct Hc Hd).
  apply matchesAt_firstn in Hmc. apply matchesAt_firstn in Hmd.
  rewrite (registered_signature_length c Hc) in Hmc.
  rewrite (registered_signature_length d Hd) in Hmd.
  congruence.
Qed.

Lemma findCommand_of_match (data : list N) (index : nat) (c : CommandDef) :
  In c COMMANDS -> matchesAt data index (bytes c) ->
  findCommand data index = Some c.
Proof.
  intros Hin Hm. unfold findCommand.
  destruct (findCommandIn COMMANDS data index) as [d|] eqn:Hfind.
  - apply findCommandIn_Some in Hfind as (before & after & Hreg & Hmd & _).
    f_equal. apply (registered_match_unique data index d c); auto.
    rewrite Hreg. apply in_elt.
  - apply findCommandIn_None in Hfind. rewrite Forall_forall in Hfind.
    exfalso. apply (Hfind c Hin). exact Hm.
Qed.

(** X9. No registered signature shadows another: the ten signatures are
    distinct two-byte sequences, so at most one of them matches at a
    position, and [findCommand] gives the same answer as a scan of the same
    definitions in any other order (any registry with the same members). *)
Theorem findCommand_order_irrelevant :
  forall (registry : list CommandDef) (data : list N) (index : nat),
    (forall c, In c registry <-> In c COMMANDS) ->
    findCommandIn registry data index = findCommand data index /\
    (forall c d, In c COMMANDS -> In d COMMANDS ->
                 matchesAt data index (bytes c) ->
                 matchesAt data index (bytes d) -> c = d).
Proof.
  intros registry data index Hsame.
  split; [|intros c d; apply registered_match_unique].
  destruct (findCommand data index) as [c|] eqn:Hfind.
  - unfold findCommand in Hfind.
    apply findCommandIn_Some in Hfind as (before & after & Hreg & Hm & _).
    assert (Hin : In c COMMANDS) by (rewrite Hreg; apply in_elt).
    destruct (findCommandIn registry data index) as [d|] eqn:Hfind'.
    + apply findCommandIn_Some in Hfind'
        as (before' & after' & Hreg' & Hmd & _).
      f_equal. apply (registered_match_unique data index d c); auto.
      apply Hsame. rewrite Hreg'. apply in_elt.
    + apply findCommandIn_None in Hfind'. rewrite Forall_forall in Hfind'.
      exfalso. apply (Hfind' c); [apply Hsame; exact Hin | exact Hm].
  - unfold findCommand in Hfind. apply findCommandIn_None in Hfind.
    apply findCommandIn_None. rewrite Forall_forall in *.
    intros d Hd. apply Hfind, Hsame, Hd.
Qed.

Lemma findCommand_order_irrelevant_witness :
  findCommandIn (rev COMMANDS) [0x48; 0x1d; 0x56; 0x00]%N 1
  = findCommand [0x48; 0x1d; 0x56; 0x00]%N 1.
Proof.
  apply (proj1 (findCommand_order_irrelevant (rev COMMANDS)
                  [0x48; 0x1d; 0x56; 0x00]%N 1
                  (fun c => iff_sym (in_rev COMMANDS c)))).
Defined.

(** ** Tokenizing a stream of commands *)

(** Whether the item a command's [parse] builds carries a parameter value,
    read off the function itself on its signature followed by one byte. *)
Definition takesParameter (c : CommandDef) : bool :=
  match parse c with
  | Some p => isSome (itemValue (p (bytes c ++ [0%N]) 0))
  | None => false
  end.

(** The bytes of a command in a stream: its signature, then its parameter
    byte if it is given one. *)
Definition encodeCommand (cp : CommandDef * option N) : list N :=
  bytes (fst cp) ++ match snd cp with Some v => [v] | None => [] end.

(** The item of a command standing alone with its parameter: what
    [parseCommand] builds at the start of the buffer [encodeCommand cp]. *)
Definition commandItemOf (cp : CommandDef * option N) : Item :=
  match parse (fst cp) with
  | Some p => p (encodeCommand cp) 0
  | None =>
      CommandItem (name (fst cp)) None None None (description (fst cp))
  end.

(** A registered command with a parameter byte exactly when it takes one. *)
Definition wellFormedCommand (cp : CommandDef * option N) : Prop :=
  In (fst cp) COMMANDS /\ isSome (snd cp) = takesParameter (fst cp).

(** The [parse] functions of the table read the buffer at [index + 2] only:
    a command either takes that byte as its value, and then its item depends
    on nothing else, or has no value and builds the same item everywhere. *)
Definition readsParameterOnly (c : CommandDef) : Prop :=
  exists p, parse c = Some p /\
    ((takesParameter c = true /\
      (forall data index,
          itemValue (p data index) = nth_error data (index + 2)) /\
      (forall data index data' index',
          nth_error data (index + 2) = nth_error data' (index' + 2) ->
          p data index = p data' index')) \/
     (takesParameter c = false /\
      (forall data index, itemValue (p data index) = None) /\
      (forall data index data' index', p data index = p data' index'))).

Lemma COMMANDS_readParameterOnly : Forall readsParameterOnly COMMANDS.
Proof.
  unfold COMMANDS.
  repeat (apply Forall_cons;
          [ eexists; split; [reflexivity|];
            first
              [ right; split; [reflexivity|]; split; reflexivity
              | left; split; [reflexivity|]; split; [reflexivity|];
                intros data index data' index' H; cbn beta; rewrite H;
                reflexivity ]
          | ]).
  apply Forall_nil.
Qed.

Lemma nth_error_after {A} (pre l : list A) (i : nat) :
  nth_error (pre ++ l) (length pre + i) = nth_error l i.
Proof.
  rewrite nth_error_app2 by lia. f_equal. lia.
Qed.

Section CommandStream.

Variable iconv_decode : list N -> string -> option jsstring.
Variable encoding : string.

Lemma parseBuffer_loop_commands (cmds : list (CommandDef * option N)) :
  forall (pre : list N) (result : list Item),
    Forall wellFormedCommand cmds ->
    parseBuffer_loop iconv_decode (pre ++ concat (map encodeCommand cmds))
      encoding (length pre) result
    = result ++ map commandItemOf cmds.
Proof.
  induction cmds as [|[c param] cmds IH]; intros pre result Hall.
  - cbn [map concat]. rewrite parseBuffer_loop_step, !app_nil_r.
    rewrite Nat.ltb_irrefl. reflexivity.
  - inversion Hall as [|? ? [Hin Hparam] Hrest]; subst.
    cbn [fst snd] in Hin, Hparam.
    cbn [map concat]. set (rest := concat (map encodeCommand cmds)) in *.
    pose proof (registered_signature_length c Hin) as H2.
    pose proof COMMANDS_readParameterOnly as Htable.
    rewrite Forall_forall in Htable.
    destruct (Htable c Hin) as (p & Hp & Hcase).
    assert (Hmatch : matchesAt (pre ++ encodeCommand (c, param) ++ rest)
                       (length pre) (bytes c)).
    { split.
      - rewrite !length_app. unfold encodeCommand. cbn [fst snd].
        rewrite length_app. lia.
      - intros i Hi. rewrite nth_error_after.
        unfold encodeCommand. cbn [fst snd].
        rewrite <- app_assoc. apply nth_error_app1. exact Hi. }
    pose proof (findCommand_of_match _ _ c Hin Hmatch) as Hfind.
    rewrite parseBuffer_loop_step.
    assert (Hlt : length pre
                  < length (pre ++ encodeCommand (c, param) ++ rest)).
    { rewrite !length_app. unfold encodeCommand. cbn [fst snd].
      rewrite length_app. lia. }
    apply Nat.ltb_lt in Hlt. rewrite Hlt.
    unfold parseNextItem. rewrite Hfind. unfold parseCommand. rewrite Hp, H2.
    assert (Hgoal :
      p (pre ++ encodeCommand (c, param) ++ rest) (length pre)
        = commandItemOf (c, param) /\
      length pre + 2
      + match itemValue (p (pre ++ encodeCommand (c, param) ++ rest)
                           (length pre)) with
        | Some _ => 1
        | None => 0
        end
      = length (pre ++ encodeCommand (c, param))).
    { unfold commandItemOf. cbn [fst]. rewrite Hp.
      destruct Hcase as [(Htakes & Hvalue & Hdep)|(Htakes & Hvalue & Hconst)].
      - rewrite Htakes in Hparam. destruct param as [v|]; [|discriminate].
        assert (Hnth : nth_error (pre ++ encodeCommand (c, Some v) ++ rest)
                         (length pre + 2) = Some v).
        { rewrite nth_error_after. unfold encodeCommand. cbn [fst snd].
          rewrite <- !app_assoc, nth_error_app2 by lia.
          rewrite H2. reflexivity. }
        split.
        + apply Hdep. rewrite Hnth. unfold encodeCommand. cbn [fst snd].
          rewrite nth_error_app2 by lia. rewrite H2. reflexivity.
        + rewrite Hvalue, Hnth, length_app. unfold encodeCommand.
          cbn [fst snd]. rewrite length_app, H2. simpl. lia.
      - rewrite Htakes in Hparam. destruct param as [v|]; [discriminate|].
        split; [apply Hconst|].
        rewrite Hvalue, length_app. unfold encodeCommand. cbn [fst snd].
        rewrite app_nil_r, H2. lia. }
    destruct Hgoal as [Hitem Hnext].
    replace (nextIndex
               {| item := Some (p (pre ++ encodeCommand (c, param) ++ rest)
                                  (length pre));
                  nextIndex :=
                    match
                      Some p,
                      itemValue (p (pre ++ encodeCommand (c, param) ++ rest)
                                   (length pre))
                    with
                    | Some _, Some _ => length pre + 2 + 1
                    | _, _ => length pre + 2
                    end |})
      with (length (pre ++ encodeCommand (c, param))).
    2:{ cbn [nextIndex]. rewrite <- Hnext.
        destruct (itemValue _); lia. }
    cbn [item]. rewrite Hitem, app_assoc.
    rewrite (IH (pre ++ encodeCommand (c, param)) _ Hrest).
    cbn [map]. rewrite <- app_assoc. reflexivity.
Qed.

End CommandStream.

(** X10. Round trip of a command stream: the signatures of registered
    commands, each followed by its parameter byte when the command takes one,
    written one after the other, tokenize to exactly the items of these
    commands, in order, each with its own parameter value, and to no text
    item. *)
Theorem parseBuffer_command_stream :
  forall (iconv_decode : list N -> string -> option jsstring)
         (encoding : string) (cmds : list (CommandDef * option N)),
    Forall wellFormedCommand cmds ->
    parseBuffer iconv_decode (concat (map encodeCommand cmds)) encoding
      = map commandItemOf cmds /\
    Forall (fun it => isCommandItem it = true)
           (parseBuffer iconv_decode (concat (map encodeCommand cmds))
              encoding) /\
    map itemValue
        (parseBuffer iconv_decode (concat (map encodeCommand cmds)) encoding)
      = map snd cmds.
Proof.
  intros iconv_decode encoding cmds Hall.
  assert (Hparse :
    parseBuffer iconv_decode (concat (map encodeCommand cmds)) encoding
    = map commandItemOf cmds).
  { unfold parseBuffer.
    destruct (Nat.eqb_spec (length (concat (map encodeCommand cmds))) 0)
      as [H0|_].
    - destruct cmds as [|[c param] cmds]; [reflexivity|].
      exfalso. inversion Hall as [|? ? [Hin _] _]; subst. cbn [fst] in Hin.
      pose proof (registered_signature_length c Hin) as H2.
      cbn [map concat] in H0. unfold encodeCommand in H0. cbn [fst snd] in H0.
      rewrite !length_app in H0. lia.
    - apply (parseBuffer_loop_commands iconv_decode encoding cmds [] []
               Hall). }
  rewrite Hparse.
  assert (Hitems : forall cp, wellFormedCommand cp ->
                     isCommandItem (commandItemOf cp) = true /\
                     itemValue (commandItemOf cp) = snd cp).
  { intros [c param] [Hin Hparam]. cbn [fst snd] in *.
    pose proof COMMANDS_shape as Hshape. rewrite Forall_forall in Hshape.
    destruct (Hshape c Hin) as (H2 & _ & p & Hp & Hitem).
    pose proof COMMANDS_readParameterOnly as Htable.
    rewrite Forall_forall in Htable.
    destruct (Htable c Hin) as (p' & Hp' & Hcase).
    rewrite Hp in Hp'. injection Hp' as <-.
    unfold commandItemOf. cbn [fst]. rewrite Hp.
    destruct (Hitem (encodeCommand (c, param)) 0) as (v & w & h & d & Hpi & _).
    split; [rewrite Hpi; reflexivity|].
    destruct Hcase as [(Htakes & Hvalue & _)|(Htakes & Hvalue & _)].
    - rewrite Htakes in Hparam. destruct param as [x|]; [|discriminate].
      rewrite Hvalue. unfold encodeCommand. cbn [fst snd].
      rewrite nth_error_app2 by lia. rewrite H2. reflexivity.
    - rewrite Htakes in Hparam. destruct param as [x|]; [discriminate|].
      apply Hvalue. }
  split; [reflexivity|]. split.
  - rewrite Forall_forall. intros it Hin.
    apply in_map_iff in Hin as (cp & <- & Hcp).
    rewrite Forall_forall in Hall. apply Hitems, Hall, Hcp.
  - rewrite map_map. apply map_ext_in. intros cp Hcp.
    rewrite Forall_forall in Hall. apply Hitems, Hall, Hcp.
Qed.

Lemma parseBuffer_command_stream_witness :
  parseBuffer sampleDecode
    (concat (map encodeCommand
               [(INITIALIZE, None); (ALIGN, Some 1%N); (BOLD, Some 0x1b%N);
                (CUT_PAPER, Some 0%N)])) "gbk"
  = map commandItemOf
      [(INITIALIZE, None); (ALIGN, Some 1%N); (BOLD, Some 0x1b%N);
       (CUT_PAPER, Some 0%N)].
Proof.
  apply (proj1 (parseBuffer_command_stream sampleDecode "gbk"
                  [(INITIALIZE, None); (ALIGN, Some 1%N); (BOLD, Some 0x1b%N);
                   (CUT_PAPER, Some 0%N)]
                  ltac:(repeat constructor; cbn; tauto))).
Defined.

(** ** Tokenizing printable bytes *)

(** Every registered signature starts with ESC or GS. *)
Lemma COMMANDS_first_byte :
  Forall (fun c => nth_error (bytes c) 0 = Some 0x1b%N \/
                   nth_error (bytes c) 0 = Some 0x1d%N) COMMANDS.
Proof.
  unfold COMMANDS.
  repeat (apply Forall_cons; [cbn; auto|]). apply Forall_nil.
Qed.

Lemma findCommand_first_byte (data : list N) (index : nat) (c : CommandDef) :
  findCommand data index = Some c ->
  nth_error data index = Some 0x1b%N \/ nth_error data index = Some 0x1d%N.
Proof.
  intros Hfind. unfold findCommand in Hfind.
  apply findCommandIn_Some in Hfind as (before & after & Hreg & [_ Hm] & _).
  assert (Hin : In c COMMANDS) by (rewrite Hreg; apply in_elt).
  pose proof COMMANDS_first_byte as Hall. rewrite Forall_forall in Hall.
  specialize (Hm 0). rewrite Nat.add_0_r in Hm.
  rewrite Hm by (rewrite (registered_signature_length c Hin); lia).
  apply Hall, Hin.
Qed.

Lemma printable_not_newline (b : N) :
  isPrintableChar b = true -> isNewLine b = false.
Proof.
  unfold isPrintableChar, isNewLine. intros H.
  destruct (N.eqb_spec b 0x0a) as [->|_]; [discriminate|].
  destruct (N.eqb_spec b 0x0d) as [->|_]; [discriminate|].
  reflexivity.
Qed.

Lemma printable_no_command (data : list N) (index : nat) (b : N) :
  nth_error data index = Some b -> isPrintableChar b = true ->
  findCommand data index = None.
Proof.
  intros Hb Hpr. destruct (findCommand data index) as [c|] eqn:Hfind;
    [|reflexivity].
  apply findCommand_first_byte in Hfind as [H|H]; rewrite H in Hb;
    injection Hb as <-; discriminate.
Qed.

Section PrintableRun.

Variable iconv_decode : list N -> string -> option jsstring.
Variables (buffer : list N) (encoding : string).
Hypothesis Hprintable : Forall (fun b => isPrintableChar b = true) buffer.

Lemma parseTextData_loop_printable :
  forall index textBytes,
    index <= length buffer ->
    parseTextData_loop iconv_decode buffer encoding index textBytes
    = finishTextData iconv_decode (textBytes ++ skipn index buffer) encoding
        (length buffer).
Proof.
  intros index textBytes. pattern index, textBytes.
  apply (textLoop_ind buffer). clear index textBytes.
  intros index textBytes IH Hle. rewrite parseTextData_loop_step.
  destruct (nth_error buffer index) as [byte|] eqn:Hbyte.
  - assert (Hlt : index < length buffer)
      by (apply nth_error_Some; congruence).
    assert (Hpr : isPrintableChar byte = true).
    { rewrite Forall_forall in Hprintable. apply Hprintable.
      apply nth_error_In with (n := index). exact Hbyte. }
    rewrite (printable_no_command buffer index byte Hbyte Hpr).
    cbn [isSome]. rewrite (printable_not_newline byte Hpr), Hpr.
    rewrite (IH Hlt (textBytes ++ [byte]) ltac:(lia)).
    rewrite (skipn_nth_error buffer index byte Hbyte), <- app_assoc.
    rewrite Nat.add_1_r. reflexivity.
  - apply nth_error_None in Hbyte.
    replace index with (length buffer) by lia.
    rewrite skipn_all, app_nil_r. reflexivity.
Qed.

End PrintableRun.

(** X11. A buffer of printable bytes only (0x20 to 0x7E, or 0x80 and above)
    is one text run: a non-empty such buffer tokenizes to exactly one text
    item, whose byte run is the whole buffer and whose text is the decoding
    of the whole buffer. *)
Theorem parseBuffer_printable_run :
  forall (iconv_decode : list N -> string -> option jsstring)
         (buffer : list N) (encoding : string),
    buffer <> [] ->
    Forall (fun b => isPrintableChar b = true) buffer ->
    parseBuffer iconv_decode buffer encoding
    = [createTextItem (decodeText iconv_decode buffer encoding) buffer
         encoding
         (js "文本: " ++ [34%N] ++ decodeText iconv_decode buffer encoding
            ++ [34%N])].
Proof.
  intros iconv_decode buffer encoding Hne Hall. unfold parseBuffer.
  destruct (Nat.eqb_spec (length buffer) 0) as [H0|Hlen].
  { destruct buffer; [contradiction | discriminate]. }
  rewrite parseBuffer_loop_step.
  destruct (Nat.ltb_spec 0 (length buffer)) as [Hlt|Hge]; [|lia].
  assert (Hstep : parseNextItem iconv_decode buffer 0 encoding
                  = finishTextData iconv_decode buffer encoding
                      (length buffer)).
  { unfold parseNextItem, parseTextData.
    destruct buffer as [|b rest]; [contradiction|].
    inversion Hall as [|? ? Hb _]; subst.
    rewrite (printable_no_command (b :: rest) 0 b eq_refl Hb).
    rewrite (parseTextData_loop_printable iconv_decode (b :: rest) encoding
               Hall 0 [] ltac:(lia)).
    reflexivity. }
  rewrite Hstep. cbn [nextIndex]. rewrite parseBuffer_loop_step.
  rewrite Nat.ltb_irrefl.
  unfold finishTextData. destruct buffer; [contradiction|]. reflexivity.
Qed.

Lemma parseBuffer_printable_run_witness :
  parseBuffer sampleDecode [0x48; 0x69; 0x21; 0xc4; 0xe3]%N "utf8"
  = [createTextItem
       (decodeText sampleDecode [0x48; 0x69; 0x21; 0xc4; 0xe3]%N "utf8")
       [0x48; 0x69; 0x21; 0xc4; 0xe3]%N "utf8"
       (js "文本: " ++ [34%N]
          ++ decodeText sampleDecode [0x48; 0x69; 0x21; 0xc4; 0xe3]%N "utf8"
          ++ [34%N])].
Proof.
  apply (parseBuffer_printable_run sampleDecode
           [0x48; 0x69; 0x21; 0xc4; 0xe3]%N "utf8").
  - discriminate.
  - repeat constructor.
Defined.

(** ** The decoder and the segmentation *)

(** An item without what the text decoder contributes: a text item keeps its
    byte run only. *)
Definition withoutDecoding (it : Item) : Item :=
  match it with
  | CommandItem _ _ _ _ _ => it
  | TextItem _ _ bytes _ _ => TextItem [] [] bytes "" []
  end.

Section TwoDecoders.

Variables decode1 decode2 : list N -> string -> option jsstring.
Variables encoding1 encoding2 : string.
Variable buffer : list N.

Lemma finishTextData_decoders (textBytes : list N) (index : nat) :
  nextIndex (finishTextData decode1 textBytes encoding1 index)
  = nextIndex (finishTextData decode2 textBytes encoding2 index) /\
  option_map withoutDecoding
    (item (finishTextData decode1 textBytes encoding1 index))
  = option_map withoutDecoding
      (item (finishTextData decode2 textBytes encoding2 index)).
Proof.
  unfold finishTextData. destruct (nonEmpty textBytes); split; reflexivity.
Qed.

Lemma parseTextData_loop_decoders :
  forall index textBytes,
    nextIndex (parseTextData_loop decode1 buffer encoding1 index textBytes)
    = nextIndex (parseTextData_loop decode2 buffer encoding2 index textBytes)
    /\
    option_map withoutDecoding
      (item (parseTextData_loop decode1 buffer encoding1 index textBytes))
    = option_map withoutDecoding
        (item (parseTextData_loop decode2 buffer encoding2 index textBytes)).
Proof.
  intros index textBytes. pattern index, textBytes.
  apply (textLoop_ind buffer). clear index textBytes.
  intros index textBytes IH.
  rewrite (parseTextData_loop_step decode1 buffer encoding1 index textBytes),
    (parseTextData_loop_step decode2 buffer encoding2 index textBytes).
  destruct (nth_error buffer index) as [byte|] eqn:Hbyte;
    [|apply finishTextData_decoders].
  assert (Hlt : index < length buffer) by (apply nth_error_Some; congruence).
  destruct (isSome (findCommand buffer index));
    [apply finishTextData_decoders|].
  destruct (isNewLine byte).
  { destruct (nonEmpty textBytes); [apply finishTextData_decoders|].
    split; reflexivity. }
  destruct (isPrintableChar byte); [apply (IH Hlt)|].
  destruct (nonEmpty textBytes); [apply finishTextData_decoders|].
  apply (IH Hlt).
Qed.

Lemma parseNextItem_decoders (index : nat) :
  nextIndex (parseNextItem decode1 buffer index encoding1)
  = nextIndex (parseNextItem decode2 buffer index encoding2) /\
  option_map withoutDecoding
    (item (parseNextItem decode1 buffer index encoding1))
  = option_map withoutDecoding
      (item (parseNextItem decode2 buffer index encoding2)).
Proof.
  unfold parseNextItem, parseTextData.
  destruct (findCommand buffer index); [split; reflexivity|].
  apply parseTextData_loop_decoders.
Qed.

Lemma parseBuffer_loop_decoders :
  forall index result1 result2,
    map withoutDecoding result1 = map withoutDecoding result2 ->
    map withoutDecoding
      (parseBuffer_loop decode1 buffer encoding1 index result1)
    = map withoutDecoding
        (parseBuffer_loop decode2 buffer encoding2 index result2).
Proof.
  intros index. pattern index.
  apply (cursor_ind decode1 buffer encoding1). clear index.
  intros index IH result1 result2 Hresults.
  rewrite (parseBuffer_loop_step decode1 buffer encoding1 index result1),
    (parseBuffer_loop_step decode2 buffer encoding2 index result2).
  destruct (Nat.ltb_spec index (length buffer)) as [Hlt|Hge];
    [|exact Hresults].
  destruct (parseNextItem_decoders index) as [Hnext Hitem].
  rewrite <- Hnext. apply (IH Hlt).
  destruct (item (parseNextItem decode1 buffer index encoding1)) as [it1|],
           (item (parseNextItem decode2 buffer index encoding2)) as [it2|];
    cbn [option_map] in Hitem; try discriminate; [|exact Hresults].
  injection Hitem as Hitem. rewrite !map_app, Hresults. cbn [map].
  rewrite Hitem. reflexivity.
Qed.

End TwoDecoders.

(** X12. The decoder and the encoding name have no part in the
    segmentation: whatever [iconv.decode] does and whatever encoding is
    asked for, a buffer tokenizes to the same sequence of items up to the
    decoded text of the text items, that is, to the same command items and
    to text items with the same byte runs, in the same order. *)
Theorem parseBuffer_segmentation_decoder_free :
  forall (decode1 decode2 : list N -> string -> option jsstring)
         (encoding1 encoding2 : string) (buffer : list N),
    map withoutDecoding (parseBuffer decode1 buffer encoding1)
    = map withoutDecoding (parseBuffer decode2 buffer encoding2).
Proof.
  intros decode1 decode2 encoding1 encoding2 buffer. unfold parseBuffer.
  destruct (length buffer =? 0); [reflexivity|].
  apply parseBuffer_loop_decoders. reflexivity.
Qed.

(** ** Bytes from hexadecimal text *)

Lemma hexValue_bound (c v : N) : hexValue c = Some v -> (v < 16)%N.
Proof.
  unfold hexValue. intros H.
  destruct ((48 <=? c) && (c <=? 57))%N eqn:E1.
  { injection H as <-. apply andb_true_iff in E1 as [A B].
    apply N.leb_le in A, B. lia. }
  destruct ((65 <=? c) && (c <=? 70))%N eqn:E2.
  { injection H as <-. apply andb_true_iff in E2 as [A B].
    apply N.leb_le in A, B. lia. }
  destruct ((97 <=? c) && (c <=? 102))%N eqn:E3; [|discriminate].
  injection H as <-. apply andb_true_iff in E3 as [A B].
  apply N.leb_le in A, B. lia.
Qed.

Lemma bufferFromHex_bytes_upto (n : nat) :
  forall cleanHex,
    length cleanHex <= n ->
    Forall (fun b => (b < 256)%N) (bufferFromHex cleanHex) /\
    2 * length (bufferFromHex cleanHex) <= length cleanHex.
Proof.
  induction n as [|n IH]; intros cleanHex Hlen.
  - destruct cleanHex; [|simpl in Hlen; lia]. simpl. split; [constructor|lia].
  - destruct cleanHex as [|hi [|lo rest]];
      try (simpl; split; [constructor|lia]).
    cbn [bufferFromHex].
    destruct (hexValue hi) as [h|] eqn:Hhi;
      [|simpl; split; [constructor|lia]].
    destruct (hexValue lo) as [l|] eqn:Hlo;
      [|simpl; split; [constructor|lia]].
    apply hexValue_bound in Hhi. apply hexValue_bound in Hlo.
    destruct (IH rest ltac:(simpl in Hlen; lia)) as [Hall Hhalf].
    split; [constructor; [lia | exact Hall] | simpl; lia].
Qed.

(** The buffer read from a hexadecimal string holds bytes only, and never
    more of them than half the number of characters of the string. *)
Lemma bufferFromHex_bytes :
  forall (cleanHex : jsstring),
    Forall (fun b => (b < 256)%N) (bufferFromHex cleanHex) /\
    2 * length (bufferFromHex cleanHex) <= length cleanHex.
Proof.
  intros cleanHex. apply (bufferFromHex_bytes_upto (length cleanHex)). lia.
Qed.

(** ** The byte line of the command-line tool

    The detailed output of the command-line tool prints the byte run of a
    text item as
    [item.bytes.map((b) => b.toString(16).toUpperCase().padStart(2, '0')).join(' ')]. *)

Module Cli.

(** [b.toString(16)] for a non-negative integer. *)
Definition toString16 (b : N) : jsstring :=
  js (HexadecimalString.NilZero.string_of_uint (N.to_hex_uint b)).

(** [s.toUpperCase()] on a string of digits and ASCII letters, as
    [toString(16)] gives. *)
Definition toUpperCase (s : jsstring) : jsstring :=
  map (fun c => if ((97 <=? c) && (c <=? 122))%N then (c - 32)%N else c) s.

(** [s.padStart(targetLength, pad)] for a one-character [pad]. *)
Definition padStart (s : jsstring) (targetLength : nat) (pad : N) : jsstring :=
  repeat pad (targetLength - length s) ++ s.

Definition byteToHex (b : N) : jsstring :=
  padStart (toUpperCase (toString16 b)) 2 48%N.

Definition bytesLine (bytes : list N) : jsstring :=
  join (js " ") (map byteToHex bytes).

End Cli.

Import Cli.

(** What the round trip needs of the rendering of one byte, as a test. *)
Definition byteToHexReadsBack (b : N) : bool :=
  match byteToHex b with
  | [hi; lo] =>
      match hexValue hi, hexValue lo with
      | Some h, Some l =>
          ((16 * h + l =? b)%N && negb (isWhiteSpace hi)
           && negb (isWhiteSpace lo))%bool
      | _, _ => false
      end
  | _ => false
  end.

Lemma byteToHex_all_read_back :
  forallb byteToHexReadsBack (map N.of_nat (seq 0 256)) = true.
Proof. vm_compute. reflexivity. Qed.

Lemma byteToHex_reads_back (b : N) :
  (b < 256)%N ->
  exists hi lo h l,
    byteToHex b = [hi; lo] /\ hexValue hi = Some h /\ hexValue lo = Some l /\
    (16 * h + l)%N = b /\ isWhiteSpace hi = false /\ isWhiteSpace lo = false.
Proof.
  intros Hb.
  assert (Hok : byteToHexReadsBack b = true).
  { pose proof byteToHex_all_read_back as Hall.
    rewrite forallb_forall in Hall. apply Hall.
    apply in_map_iff. exists (N.to_nat b). split; [apply N2Nat.id|].
    apply in_seq. lia. }
  unfold byteToHexReadsBack in Hok.
  destruct (byteToHex b) as [|hi [|lo [|? ?]]]; cbv iota beta in Hok;
    try discriminate.
  destruct (hexValue hi) as [h|] eqn:Hh; [|discriminate].
  destruct (hexValue lo) as [l|] eqn:Hl; [|discriminate].
  apply andb_true_iff in Hok as [Hok Hlo].
  apply andb_true_iff in Hok as [Hval Hhi].
  apply N.eqb_eq in Hval. apply negb_true_iff in Hhi, Hlo.
  exists hi, lo, h, l. repeat split; auto.
Qed.

Lemma cleaned_bytesLine (bytes : list N) :
  Forall (fun b => (b < 256)%N) bytes ->
  cleaned (bytesLine bytes) = concat (map byteToHex bytes).
Proof.
  unfold bytesLine, cleaned. change (js " ") with [32%N].
  induction 1 as [|b rest Hb Hrest IH]; [reflexivity|].
  destruct (byteToHex_reads_back b Hb)
    as (hi & lo & h & l & Hhex & _ & _ & _ & Hhi & Hlo).
  assert (Hkeep : filter (fun c => negb (isWhiteSpace c)) (byteToHex b)
                  = byteToHex b).
  { rewrite Hhex. cbn [filter]. rewrite Hhi, Hlo. reflexivity. }
  cbn [map concat].
  destruct rest as [|b' rest'].
  - cbn [map join concat]. rewrite app_nil_r. exact Hkeep.
  - change (join [32%N] (byteToHex b :: map byteToHex (b' :: rest')))
      with (byteToHex b ++ [32%N] ++ join [32%N] (map byteToHex (b' :: rest'))).
    rewrite !filter_app, Hkeep, IH. reflexivity.
Qed.

Lemma bufferFromHex_bytesLine (bytes : list N) :
  Forall (fun b => (b < 256)%N) bytes ->
  bufferFromHex (concat (map byteToHex bytes)) = bytes /\
  length (concat (map byteToHex bytes)) = 2 * length bytes.
Proof.
  induction 1 as [|b rest Hb Hrest [IH IHlen]]; [split; reflexivity|].
  destruct (byteToHex_reads_back b Hb)
    as (hi & lo & h & l & Hhex & Hh & Hl & Hval & _ & _).
  cbn [map concat]. rewrite Hhex. cbn [app bufferFromHex length].
  rewrite Hh, Hl, Hval, IH, IHlen. split; [reflexivity | lia].
Qed.

(** X14. The byte line of the command-line tool reads back: for a non-empty
    run of bytes, the line the tool prints for it (two upper-case
    hexadecimal digits for each byte, separated by spaces), given to
    [parseHexString], is accepted and parsed as exactly those bytes. *)
Theorem bytesLine_reads_back :
  forall (iconv_decode : list N -> string -> option jsstring)
         (encoding : string) (bytes : list N),
    bytes <> [] ->
    Forall (fun b => (b < 256)%N) bytes ->
    bufferFromHex (cleaned (bytesLine bytes)) = bytes /\
    parseHexString iconv_decode (bytesLine bytes) encoding
      = Returns (parseBuffer iconv_decode bytes encoding).
Proof.
  intros iconv_decode encoding bytes Hne Hall.
  destruct (bufferFromHex_bytesLine bytes Hall) as [Hback Hlen].
  pose proof (cleaned_bytesLine bytes Hall) as Hclean.
  split; [rewrite Hclean; exact Hback|].
  unfold parseHexString. fold (cleaned (bytesLine bytes)).
  rewrite Hclean, Hlen, Hback.
  destruct bytes as [|b rest]; [contradiction|].
  replace (2 * length (b :: rest) =? 0) with false
    by (symmetry; apply Nat.eqb_neq; simpl; lia).
  replace ((2 * length (b :: rest)) mod 2 =? 0) with true.
  - reflexivity.
  - symmetry. apply Nat.eqb_eq. rewrite Nat.mul_comm.
    apply Nat.Div0.mod_mul.
Qed.

Lemma bytesLine_reads_back_witness :
  bufferFromHex (cleaned (bytesLine [0x1b; 0x61; 0x01; 0x0a; 0xc4]%N))
    = [0x1b; 0x61; 0x01; 0x0a; 0xc4]%N /\
  parseHexString sampleDecode (bytesLine [0x1b; 0x61; 0x01; 0x0a; 0xc4]%N)
    "utf8"
    = Returns (parseBuffer sampleDecode [0x1b; 0x61; 0x01; 0x0a; 0xc4]%N
                 "utf8").
Proof.
  apply (bytesLine_reads_back sampleDecode "utf8"
           [0x1b; 0x61; 0x01; 0x0a; 0xc4]%N).
  - discriminate.
  - repeat constructor.
Defined.

Example bytesLine_example :
  bytesLine [0x1b; 0x61; 0x01; 0x0a; 0xc4]%N = js "1B 61 01 0A C4".
Proof. vm_compute. reflexivity. Qed.

(** ** Line feeds *)

Lemma last_blank_lines (ls : list jsstring) (n : nat) :
  last (ls ++ repeat [] (S n)) [] = [].
Proof.
  replace (repeat (@nil N) (S n)) with (repeat (@nil N) n ++ [[]]).
  - rewrite app_assoc. apply last_last.
  - rewrite <- repeat_cons. reflexivity.
Qed.

Lemma withLines_same (f : TextFormatter) : withLines f (lines f ++ []) = f.
Proof. destruct f. unfold withLines. simpl. rewrite app_nil_r. reflexivity. Qed.

(** X15. The blank lines of a feed.  After the line in progress is flushed,
    PRINT_AND_FEED (and LINE_FEED) with a count above 1 appends exactly
    [count - 1] blank lines and nothing else; with a count of 1, of 0 or
    absent it appends a single blank line when the last finalized line
    contains [---] and nothing otherwise.  So the blank line after a rule is
    never added to a feed of several lines. *)
Theorem print_and_feed_blank_lines :
  forall (f : TextFormatter) (value : option N),
    let g := flushCurrentLine f in
    let blank :=
      if (1 <? valueOr value 1)%N then N.to_nat (valueOr value 1) - 1
      else if nonEmpty (lines g) && includes (last (lines g) []) (js "---")
           then 1 else 0 in
    processCommandItem f "PRINT_AND_FEED" value
      = Returns (withLines g (lines g ++ repeat [] blank)) /\
    processCommandItem f "LINE_FEED" value
      = processCommandItem f "PRINT_AND_FEED" value.
Proof.
  intros f value g blank. split; [|reflexivity].
  change (processCommandItem f "PRINT_AND_FEED" value)
    with (Returns
            (let g1 :=
               if (1 <? valueOr value 1)%N
               then withLines g
                      (lines g ++ repeat [] (N.to_nat (valueOr value 1) - 1))
               else g in
             if nonEmpty (lines g1) && includes (last (lines g1) []) (js "---")
             then pushLine g1 [] else g1)).
  subst blank. cbv zeta. f_equal.
  destruct (N.ltb_spec 1 (valueOr value 1)) as [Hmany|Hone].
  - cbn [lines withLines].
    destruct (N.to_nat (valueOr value 1) - 1) as [|n] eqn:Hn; [lia|].
    rewrite last_blank_lines.
    replace (includes [] (js "---")) with false by reflexivity.
    rewrite andb_false_r. reflexivity.
  - destruct (nonEmpty (lines g) && includes (last (lines g) []) (js "---")).
    + reflexivity.
    + symmetry. apply withLines_same.
Qed.

(** ** Where a text run ends *)

(** The inner loop cannot take the byte at position [e] into a run: there is
    none, or a command matches there, or it is a line terminator, or it is
    not printable. *)
Definition runStops (buffer : list N) (e : nat) : Prop :=
  match nth_error buffer e with
  | None => True
  | Some byte =>
      isSome (findCommand buffer e) = true \/ isNewLine byte = true \/
      isPrintableChar byte = false
  end.

(** The text item of a step is a newline item, or its run ends where the
    loop cannot go on. *)
Definition endsWhereItMust (buffer : list N) (pr : ParseResult) : Prop :=
  match item pr with
  | Some (TextItem _ _ run _ _) =>
      (exists b, run = [b] /\ isNewLine b = true) \/
      runStops buffer (nextIndex pr)
  | _ => True
  end.

Section RunEnd.

Variable iconv_decode : list N -> string -> option jsstring.
Variables (buffer : list N) (encoding : string).

Lemma finishTextData_stops (textBytes : list N) (index : nat) :
  runStops buffer index ->
  endsWhereItMust buffer (finishTextData iconv_decode textBytes encoding index).
Proof.
  intros Hstop. unfold endsWhereItMust, finishTextData.
  destruct (nonEmpty textBytes); cbn [item nextIndex createTextItem];
    [right; exact Hstop | exact I].
Qed.

Lemma parseTextData_loop_stops :
  forall index textBytes,
    endsWhereItMust buffer
      (parseTextData_loop iconv_decode buffer encoding index textBytes).
Proof.
  intros index textBytes. pattern index, textBytes.
  apply (textLoop_ind buffer). clear index textBytes.
  intros index textBytes IH. rewrite parseTextData_loop_step.
  destruct (nth_error buffer index) as [byte|] eqn:Hbyte.
  2:{ apply finishTextData_stops. unfold runStops. rewrite Hbyte. exact I. }
  assert (Hlt : index < length buffer) by (apply nth_error_Some; congruence).
  destruct (isSome (findCommand buffer index)) eqn:Hcmd.
  { apply finishTextData_stops. unfold runStops. rewrite Hbyte. auto. }
  destruct (isNewLine byte) eqn:Hnl.
  { destruct (nonEmpty textBytes).
    - apply finishTextData_stops. unfold runStops. rewrite Hbyte. auto.
    - unfold endsWhereItMust. cbn [item createTextItem]. left.
      exists byte. auto. }
  destruct (isPrintableChar byte) eqn:Hpr; [apply (IH Hlt)|].
  destruct (nonEmpty textBytes); [|apply (IH Hlt)].
  apply finishTextData_stops. unfold runStops. rewrite Hbyte. auto.
Qed.

Lemma parseBuffer_steps_in :
  forall start index pr,
    In (index, pr) (parseBuffer_steps iconv_decode buffer encoding start) ->
    index < length buffer /\
    pr = parseNextItem iconv_decode buffer index encoding.
Proof.
  intros start. pattern start.
  apply (cursor_ind iconv_decode buffer encoding). clear start.
  intros start IH index pr. rewrite parseBuffer_steps_step.
  destruct (Nat.ltb_spec start (length buffer)) as [Hlt|Hge]; [|intros []].
  intros [Heq|Hin].
  - injection Heq as <- <-. auto.
  - apply (IH Hlt). exact Hin.
Qed.

End RunEnd.

(** X13. Text runs are as long as they can be: at every step of a run of the
    tokenizer that yields a text item other than a newline item, the byte
    run of the item ends at the end of the buffer, or at a position where a
    command matches, or in front of a line terminator or of a byte that is
    not printable.  A text run is never cut anywhere else. *)
Theorem text_runs_are_maximal :
  forall (iconv_decode : list N -> string -> option jsstring)
         (buffer : list N) (encoding : string) (index : nat)
         (pr : ParseResult),
    In (index, pr) (parseBuffer_steps iconv_decode buffer encoding 0) ->
    pr = parseNextItem iconv_decode buffer index encoding /\
    endsWhereItMust buffer pr.
Proof.
  intros iconv_decode buffer encoding index pr Hin.
  destruct (parseBuffer_steps_in iconv_decode buffer encoding 0 index pr Hin)
    as [Hlt ->].
  split; [reflexivity|].
  unfold parseNextItem, parseTextData.
  destruct (findCommand buffer index) as [c|] eqn:Hfind.
  - unfold endsWhereItMust.
    destruct (@findCommandIn_sound COMMANDS buffer index c Hfind) as [Hc _].
    pose proof COMMANDS_shape as Hall. rewrite Forall_forall in Hall.
    destruct (Hall c Hc) as (_ & _ & p & Hp & Hitem).
    destruct (Hitem buffer index) as (v & w & h & d & Hpi & _).
    unfold parseCommand. rewrite Hp, Hpi. exact I.
  - apply parseTextData_loop_stops.
Qed.

Lemma text_runs_are_maximal_witness :
  {| item := Some (TextItem (js "Hi") (js "Hi") [0x48; 0x69]%N "utf8"
                     (js "文本: " ++ [34%N] ++ js "Hi" ++ [34%N]));
     nextIndex := 3 |}
  = parseNextItem sampleDecode [0x00; 0x48; 0x69; 0x1b; 0x40]%N 0 "utf8" /\
  endsWhereItMust [0x00; 0x48; 0x69; 0x1b; 0x40]%N
    {| item := Some (TextItem (js "Hi") (js "Hi") [0x48; 0x69]%N "utf8"
                       (js "文本: " ++ [34%N] ++ js "Hi" ++ [34%N]));
       nextIndex := 3 |}.
Proof.
  apply (text_runs_are_maximal sampleDecode [0x00; 0x48; 0x69; 0x1b; 0x40]%N
           "utf8" 0).
  vm_compute. left. reflexivity.
Defined.
